(** * JWT verifier: a shallow embedding of [jwtverifier.go]

    The development follows the Go file top to bottom: the compiled pattern
    [regx], the [JwtVerifier] and [Jwt] structs, [fetchMetaData], [New],
    the setters, the two public verification flows, the claim checks and
    the structural check [isValidJwt] with its helpers.

    Go strings are byte sequences; they are [string] here (a list of 8-bit
    [ascii]).  [interface{}] values are the inductive [value].  An [int64]
    is a [Z] with the wrap-around written out, a [float64] is the Standard
    Library's [spec_float] at precision 53.  Everything outside the file
    (clock, HTTP, the cache, the signature adaptor, [encoding/json],
    [encoding/base64], [fmt]) is a parameter. *)

From Stdlib Require Import ZArith String Ascii List Bool Lia.
From Stdlib Require Import Floats.SpecFloat.
From stdpp Require Import gmap strings list.

Set Warnings "-register-all".
Set Default Proof Using "Type".

Local Open Scope Z_scope.

(** ** Regular expressions, as far as [regx] needs them *)

Module Regexp.

(** A character class is a list of inclusive byte ranges, the way the
    pattern text spells it: [[a-zA-Z0-9-_]] is five ranges, the last two
    degenerate. *)
Definition range : Type := (ascii * ascii)%type.

Inductive re : Type :=
| Void
| Eps
| Class (cls : list range)
| Cat (r1 r2 : re)
| Alt (r1 r2 : re)
| Star (r : re).

Definition Lit (c : ascii) : re := Class [(c, c)].
Definition Plus (r : re) : re := Cat r (Star r).
Definition Opt (r : re) : re := Alt r Eps.
(** A capture group and a non-greedy [+?] change which submatch is
    reported, never whether there is a match. *)
Definition Group (r : re) : re := r.
Definition PlusLazy (r : re) : re := Plus r.

Definition in_range (c : ascii) (rg : range) : bool :=
  (nat_of_ascii (fst rg) <=? nat_of_ascii c)%nat
  && (nat_of_ascii c <=? nat_of_ascii (snd rg))%nat.

Definition in_class (cls : list range) (c : ascii) : bool :=
  existsb (in_range c) cls.

Fixpoint nullable (r : re) : bool :=
  match r with
  | Void => false
  | Eps => true
  | Class _ => false
  | Cat r1 r2 => nullable r1 && nullable r2
  | Alt r1 r2 => nullable r1 || nullable r2
  | Star _ => true
  end.

Fixpoint deriv (c : ascii) (r : re) : re :=
  match r with
  | Void => Void
  | Eps => Void
  | Class cls => if in_class cls c then Eps else Void
  | Cat r1 r2 =>
      if nullable r1
      then Alt (Cat (deriv c r1) r2) (deriv c r2)
      else Cat (deriv c r1) r2
  | Alt r1 r2 => Alt (deriv c r1) (deriv c r2)
  | Star r1 => Cat (deriv c r1) (Star r1)
  end.

(** [accepts r t]: the whole of [t] is a match of [r]. *)
Fixpoint accepts (r : re) (t : list ascii) : bool :=
  match t with
  | [] => nullable r
  | c :: t' => accepts (deriv c r) t'
  end.

(** The search [regexp.MatchString] performs for a pattern [r$]: the match
    may start at any offset, and the trailing [$] (no multi-line flag) pins
    its end to the end of the text. *)
Fixpoint search_to_end (r : re) (t : list ascii) : bool :=
  accepts r t
  || match t with
     | [] => false
     | _ :: t' => search_to_end r t'
     end.

Definition MatchString (r : re) (s : string) : bool :=
  search_to_end r (list_ascii_of_string s).

(** The words of a regular expression, declaratively. *)
Inductive Lang : re -> list ascii -> Prop :=
| LangEps : Lang Eps []
| LangClass cls c : in_class cls c = true -> Lang (Class cls) [c]
| LangCat r1 r2 t1 t2 :
    Lang r1 t1 -> Lang r2 t2 -> Lang (Cat r1 r2) (t1 ++ t2)
| LangAltL r1 r2 t : Lang r1 t -> Lang (Alt r1 r2) t
| LangAltR r1 r2 t : Lang r2 t -> Lang (Alt r1 r2) t
| LangStarNil r : Lang (Star r) []
| LangStarCons r t1 t2 :
    Lang r t1 -> Lang (Star r) t2 -> Lang (Star r) (t1 ++ t2).

End Regexp.

(** ** Data model *)

(** An [interface{}] value by dynamic type.  [encoding/json] produces only
    [VNil] (null), [VString], [VFloat], [VBool], [VList] and [VMap]; the
    type switches of the claim checks also name [[]string]. *)
Inductive value : Type :=
| VNil
| VString (s : string)
| VFloat (f : spec_float)
| VBool (b : bool)
| VStrings (l : list string)
| VList (l : list value)
| VMap (m : gmap string value)
| VOther (tag : nat).

(** [x == s] for an interface [x] and a string [s]: equal dynamic type and
    equal value.  With a string on one side the comparison never panics. *)
Definition iface_eq_string (x : value) (s : string) : bool :=
  match x with
  | VString t => String.eqb t s
  | _ => false
  end.

(** [m[k]] on a Go map: the zero value when the key is absent. *)
Definition index_string (m : gmap string string) (k : string) : string :=
  default EmptyString (m !! k).

Definition index_value (m : gmap string value) (k : string) : value :=
  default VNil (m !! k).

(** Go [error] values, one constructor per [fmt.Errorf] of the file; a
    [%w] operand is the [cause]. *)
Inductive error : Type :=
| JwtEmptyStringError
| ErrTokenShape
| ErrHeaderNotBase64
| ErrHeaderNotJson
| ErrHeaderNoAlg
| ErrHeaderNoKid
| ErrAlgNotRS256
| ErrRequestFailed (cause : error)
| ErrStatusNot2xx (url : string) (status : Z)
| ErrMetadataCast (v : value)
| ErrMissingJwksUri
| ErrCouldNotDecode (cause : error)
| ErrNonceMismatch (nonce : value) (expected : string)
| ErrAudMismatch (aud : value) (expected : string)
| ErrAudUnknownType
| ErrCidMismatch (cid : value) (expected : string)
| ErrCidUnknownType
| ErrExpMissing
| ErrExpired
| ErrIatMissing
| ErrIatFuture
| ErrIssMismatch (normalizedIssuer expectedIssuer : string)
| ErrTokenNotValid (cause : option error)
| ErrIssuerNotValidated (cause : error)
| ErrAudienceNotValidated (cause : error)
| ErrClientIdNotValidated (cause : error)
| ErrExpirationNotValidated (cause : error)
| ErrIssuedAtNotValidated (cause : error)
| ErrNonceNotValidated (cause : error)
| ErrForeign (msg : string).

(** A [(T, error)] return whose caller looks at [T] only when the error is
    nil. *)
Inductive result (A : Type) : Type :=
| Ok (a : A)
| Err (e : error).
Arguments Ok {A} a.
Arguments Err {A} e.

Inductive panic : Type :=
| NilDereference
| InterfaceConversion (v : value).

Inductive outcome (A : Type) : Type :=
| Returned (a : A)
| Panicked (p : panic).
Arguments Returned {A} a.
Arguments Panicked {A} p.

(** *** The collaborators, over a world [W]

    [W] is the state of everything outside the verifier: the clock, the
    network, what caches and adaptors keep.  A call into a collaborator
    reads and changes it. *)

Record http_Response : Type := { StatusCode : Z; Body : string }.

Record http_Client (W : Type) : Type :=
  { http_Get : string -> W -> result http_Response * W }.
Arguments http_Get {W} _ _ _.

Record discovery_Discovery : Type := { GetWellKnownUrl : string }.

Record adaptors_Adaptor (W : Type) : Type :=
  { Decode : string -> string -> W -> result value * W }.
Arguments Decode {W} _ _ _ _.

Record utils_Cacher (W : Type) : Type :=
  { Get : string -> W -> result value * W }.
Arguments Get {W} _ _ _.

(** [time.Duration]: nanoseconds. *)
Definition Duration : Type := Z.
Definition Second : Duration := 1000000000.
Definition Minute : Duration := 60 * Second.

Definition cache_ctor (W : Type) : Type :=
  (string -> W -> result value * W) -> Duration -> Duration ->
  W -> result (utils_Cacher W) * W.

Record JwtVerifier (W : Type) : Type := {
  Issuer : string;
  ClaimsToValidate : gmap string string;
  Discovery : option discovery_Discovery;
  Adaptor : option (adaptors_Adaptor W);
  Client : option (http_Client W);
  Cache : option (cache_ctor W);
  metadataCache : option (utils_Cacher W);
  leeway : Z;
  Timeout : Duration;
  Cleanup : Duration
}.
Arguments Issuer {W} _.
Arguments ClaimsToValidate {W} _.
Arguments Discovery {W} _.
Arguments Adaptor {W} _.
Arguments Client {W} _.
Arguments Cache {W} _.
Arguments metadataCache {W} _.
Arguments leeway {W} _.
Arguments Timeout {W} _.
Arguments Cleanup {W} _.

Record Jwt : Type := { Claims : gmap string value }.

(** What the file takes from other packages. *)
Class Runtime (W : Type) : Type := {
  (** [time.Now().Unix()] *)
  time_Now_Unix : W -> Z * W;
  (** [base64.StdEncoding.DecodeString]; [None] for a non-nil error *)
  base64_DecodeString : string -> option string;
  (** [json.Unmarshal] into a [map[string]interface{}]; [None] for a
      non-nil error *)
  json_Unmarshal : string -> option (gmap string value);
  (** [json.NewDecoder(body).Decode] into a [map[string]interface{}] *)
  json_Decode : string -> result (gmap string value);
  (** the [%v] rendering of an operand that is not a string *)
  fmt_verb_v : value -> string;
  (** [time.ParseDuration]; the caller discards the error, with which the
      duration is 0 *)
  time_ParseDuration : string -> Duration;
  (** [Duration.Seconds] *)
  Duration_Seconds : Duration -> spec_float;
  (** the conversion [int64(f)] of a [float64] *)
  int64_of_float64 : spec_float -> Z;
  (** [oidc.Oidc{}.New()] *)
  oidc_New : discovery_Discovery;
  http_DefaultClient : http_Client W;
  utils_NewDefaultCache : cache_ctor W;
  (** [(&lestrratGoJwx.LestrratGoJwx{Cache, Timeout, Cleanup, Client}).New()] *)
  lestrratGoJwx_New :
    cache_ctor W -> Duration -> Duration -> http_Client W ->
    W -> result (adaptors_Adaptor W) * W
}.

(** *** Machine arithmetic *)

Definition int64_wrap (z : Z) : Z := (z + 2 ^ 63) mod 2 ^ 64 - 2 ^ 63.
Definition int64_add (a b : Z) : Z := int64_wrap (a + b).
Definition int64_sub (a b : Z) : Z := int64_wrap (a - b).

(** [float64(n)] of an [int64]: round to nearest, ties to even. *)
Definition float64_of_int64 (n : Z) : spec_float :=
  binary_normalize 53 1024 n 0 false.

(** [a > b] and [a < b] on [float64]: false as soon as one side is NaN. *)
Definition float64_gt (a b : spec_float) : bool :=
  match SFcompare a b with
  | Some Gt => true
  | _ => false
  end.

Definition float64_lt (a b : spec_float) : bool :=
  match SFcompare a b with
  | Some Lt => true
  | _ => false
  end.

(** *** String helpers of the [strings] package *)

(** [strings.Split(s, sep)] for a one-byte separator. *)
Fixpoint strings_Split (s : string) (sep : ascii) : list string :=
  match s with
  | EmptyString => [EmptyString]
  | String c s' =>
      if Ascii.eqb c sep then EmptyString :: strings_Split s' sep
      else match strings_Split s' sep with
           | [] => [String c EmptyString]
           | p :: ps => String c p :: ps
           end
  end.

Fixpoint strings_Repeat (s : string) (count : nat) : string :=
  match count with
  | O => EmptyString
  | S n => s +:+ strings_Repeat s n
  end.

Fixpoint string_mem (c : ascii) (cutset : string) : bool :=
  match cutset with
  | EmptyString => false
  | String d cutset' => Ascii.eqb c d || string_mem c cutset'
  end.

(** [strings.TrimRight(s, cutset)] for a cutset of ASCII bytes: all trailing
    bytes of [s] that occur in [cutset] are dropped. *)
Fixpoint strings_TrimRight (s cutset : string) : string :=
  match s with
  | EmptyString => EmptyString
  | String c s' =>
      match strings_TrimRight s' cutset with
      | EmptyString =>
          if string_mem c cutset then EmptyString else String c EmptyString
      | t => String c t
      end
  end.

(** ** The program *)

Import Regexp.

Definition word_class : list range :=
  [("a", "z"); ("A", "Z"); ("0", "9"); ("-", "-"); ("_", "_")]%char.

Definition tail_class : list range := ("/", "/")%char :: word_class.

(** The pattern before its final [$]:
    [[a-zA-Z0-9-_]+\.[a-zA-Z0-9-_]+\.?([a-zA-Z0-9-_]+)[/a-zA-Z0-9-_]+?]. *)
Definition regx : re :=
  Cat (Plus (Class word_class))
   (Cat (Lit ".")
    (Cat (Plus (Class word_class))
     (Cat (Opt (Lit "."))
      (Cat (Group (Plus (Class word_class)))
           (PlusLazy (Class tail_class)))))).

Definition padHeader (header : string) : string :=
  let i := (String.length header mod 4)%nat in
  if (i =? 0)%nat then header
  else header +:+ strings_Repeat "=" (4 - i).

(** Code that reads or changes the world and may panic. *)
Definition M (W A : Type) : Type := W -> outcome A * W.

#[global] Instance M_ret {W : Type} : MRet (M W) :=
  fun A a w => (Returned a, w).
#[global] Instance M_bind {W : Type} : MBind (M W) :=
  fun A B k m w =>
    match m w with
    | (Returned a, w') => k a w'
    | (Panicked p, w') => (Panicked p, w')
    end.

Definition throw {W A : Type} (p : panic) : M W A := fun w => (Panicked p, w).
Definition call {W A : Type} (f : W -> A * W) : M W A :=
  fun w => let (a, w') := f w in (Returned a, w').

Section Verifier.
Context {W : Type} `{RT : Runtime W}.

(** [fetchMetaData] with the receiver's [Client] field. *)
Definition fetchMetaData (client : http_Client W) (url : string)
  : W -> result value * W := fun w =>
  match http_Get client url w with
  | (Err err, w') => (Err (ErrRequestFailed err), w')
  | (Ok resp, w') =>
      let ok := (200 <=? StatusCode resp) && (StatusCode resp <? 300) in
      if negb ok then (Err (ErrStatusNot2xx url (StatusCode resp)), w')
      else match json_Decode (Body resp) with
           | Err err => (Err err, w')
           | Ok metadata => (Ok (VMap metadata), w')
           end
  end.

Definition set_leeway (l : Z) (j : JwtVerifier W) : JwtVerifier W :=
  {| Issuer := Issuer j; ClaimsToValidate := ClaimsToValidate j;
     Discovery := Discovery j; Adaptor := Adaptor j; Client := Client j;
     Cache := Cache j; metadataCache := metadataCache j;
     leeway := l; Timeout := Timeout j; Cleanup := Cleanup j |}.

Definition set_Timeout (d : Duration) (j : JwtVerifier W) : JwtVerifier W :=
  {| Issuer := Issuer j; ClaimsToValidate := ClaimsToValidate j;
     Discovery := Discovery j; Adaptor := Adaptor j; Client := Client j;
     Cache := Cache j; metadataCache := metadataCache j;
     leeway := leeway j; Timeout := d; Cleanup := Cleanup j |}.

Definition set_Cleanup (d : Duration) (j : JwtVerifier W) : JwtVerifier W :=
  {| Issuer := Issuer j; ClaimsToValidate := ClaimsToValidate j;
     Discovery := Discovery j; Adaptor := Adaptor j; Client := Client j;
     Cache := Cache j; metadataCache := metadataCache j;
     leeway := leeway j; Timeout := Timeout j; Cleanup := d |}.

(** [New] works on the receiver in place.  The triple is the receiver
    after the call, the returned error, and the world; with a nil error
    the returned pointer is the receiver, with an error it is nil. *)
Definition New (j : JwtVerifier W) : W -> (JwtVerifier W * option error) * W :=
  fun w =>
  let discovery := default oidc_New (Discovery j) in
  let timeout := if Timeout j =? 0 then 5 * Minute else Timeout j in
  let cleanup := if Cleanup j =? 0 then 10 * Minute else Cleanup j in
  let client := default http_DefaultClient (Client j) in
  let cache := default utils_NewDefaultCache (Cache j) in
  let defaulted (adaptor : option (adaptors_Adaptor W)) (l : Z)
                (mc : option (utils_Cacher W)) :=
    {| Issuer := Issuer j; ClaimsToValidate := ClaimsToValidate j;
       Discovery := Some discovery; Adaptor := adaptor;
       Client := Some client; Cache := Some cache; metadataCache := mc;
       leeway := l; Timeout := timeout; Cleanup := cleanup |} in
  let finish (adaptor : adaptors_Adaptor W) (w : W) :=
    match cache (fetchMetaData client) timeout cleanup w with
    | (Err err, w') =>
        (defaulted (Some adaptor) 120 (metadataCache j), Some err, w')
    | (Ok mc, w') => (defaulted (Some adaptor) 120 (Some mc), None, w')
    end in
  match Adaptor j with
  | Some adaptor => finish adaptor w
  | None =>
      match lestrratGoJwx_New cache timeout cleanup client w with
      | (Err err, w') =>
          (defaulted None (leeway j) (metadataCache j), Some err, w')
      | (Ok adp, w') => finish adp w'
      end
  end.

Definition SetLeeway (duration : string) (j : JwtVerifier W) : JwtVerifier W :=
  let dur := time_ParseDuration duration in
  set_leeway (int64_of_float64 (Duration_Seconds dur)) j.

Definition SetTimeOut (duration : Duration) (j : JwtVerifier W) : JwtVerifier W :=
  set_Timeout duration j.

Definition SetCleanUp (duration : Duration) (j : JwtVerifier W) : JwtVerifier W :=
  set_Cleanup duration j.

(** *** Structural check *)

Definition jwtRegex (jwt : string) : bool := MatchString regx jwt.

Definition isValidJwt (jwt : string) : bool * option error :=
  if String.eqb jwt "" then (false, Some JwtEmptyStringError)
  else if negb (jwtRegex jwt) then (false, Some ErrTokenShape)
  else
    let parts := strings_Split jwt "." in
    let header := padHeader (hd EmptyString parts) in
    match base64_DecodeString header with
    | None => (false, Some ErrHeaderNotBase64)
    | Some headerDecoded =>
        match json_Unmarshal headerDecoded with
        | None => (false, Some ErrHeaderNotJson)
        | Some jsonObject =>
            let algExists := bool_decide (is_Some (jsonObject !! "alg")) in
            let kidExists := bool_decide (is_Some (jsonObject !! "kid")) in
            if negb algExists then (false, Some ErrHeaderNoAlg)
            else if negb kidExists then (false, Some ErrHeaderNoKid)
            else if negb (iface_eq_string (index_value jsonObject "alg") "RS256")
                 then (false, Some ErrAlgNotRS256)
                 else (true, None)
        end
    end.

(** *** Claim checks *)

Definition Sprintf_v (x : value) : string :=
  match x with
  | VString s => s
  | _ => fmt_verb_v x
  end.

Definition normalizeIssuer (s : value) : string :=
  let str := Sprintf_v s in
  strings_TrimRight str "/".

Definition validateIss (j : JwtVerifier W) (issuer : value) : option error :=
  let normalizedIssuer := normalizeIssuer issuer in
  let expectedIssuer := normalizeIssuer (VString (Issuer j)) in
  if negb (String.eqb normalizedIssuer expectedIssuer)
  then Some (ErrIssMismatch normalizedIssuer expectedIssuer)
  else None.

Definition validateNonce (j : JwtVerifier W) (nonce : value) : option error :=
  let nonce := match nonce with VNil => VString "" | _ => nonce end in
  if negb (iface_eq_string nonce (index_string (ClaimsToValidate j) "nonce"))
  then Some (ErrNonceMismatch nonce (index_string (ClaimsToValidate j) "nonce"))
  else None.

(** The [for _, element := range v] loops: [Some r] when the body returns
    [r], [None] when the range is exhausted. *)
Fixpoint range_strings (expected : string) (v : list string)
  : option (option error) :=
  match v with
  | [] => None
  | element :: v' =>
      if String.eqb element expected then Some None
      else range_strings expected v'
  end.

Fixpoint range_values (expected : string) (unknown : error) (v : list value)
  : option (option error) :=
  match v with
  | [] => None
  | e :: v' =>
      match e with
      | VString element =>
          if String.eqb element expected then Some None
          else range_values expected unknown v'
      | _ => Some (Some unknown)
      end
  end.

Definition validateAudience (j : JwtVerifier W) (audience : value)
  : option error :=
  match ClaimsToValidate j !! "aud" with
  | None => None
  | Some expectedAudience =>
      if iface_eq_string audience expectedAudience then None
      else
        let expected := index_string (ClaimsToValidate j) "aud" in
        match audience with
        | VString v =>
            if negb (String.eqb v expected)
            then Some (ErrAudMismatch audience expected)
            else None
        | VStrings v =>
            match range_strings expected v with
            | Some r => r
            | None => Some (ErrAudMismatch audience expected)
            end
        | VList v =>
            match range_values expected ErrAudUnknownType v with
            | Some r => r
            | None => Some (ErrAudMismatch audience expected)
            end
        | _ => Some ErrAudUnknownType
        end
  end.

Definition validateClientId (j : JwtVerifier W) (clientId : value)
  : option error :=
  match ClaimsToValidate j !! "cid" with
  | Some cid =>
      if negb (iface_eq_string clientId cid) then
        match clientId with
        | VString v =>
            if negb (String.eqb v cid)
            then Some (ErrCidMismatch clientId cid)
            else None
        | VStrings v =>
            match range_strings cid v with
            | Some r => r
            | None => Some (ErrCidMismatch clientId cid)
            end
        | _ => Some ErrCidUnknownType
        end
      else None
  | None => None
  end.

Definition validateExp (j : JwtVerifier W) (exp : value) : M W (option error) :=
  match exp with
  | VFloat expf =>
      now ← call time_Now_Unix;
      if float64_gt (float64_of_int64 (int64_sub now (leeway j))) expf
      then mret (Some ErrExpired)
      else mret None
  | _ => mret (Some ErrExpMissing)
  end.

Definition validateIat (j : JwtVerifier W) (iat : value) : M W (option error) :=
  match iat with
  | VFloat iatf =>
      now ← call time_Now_Unix;
      if float64_lt (float64_of_int64 (int64_add now (leeway j))) iatf
      then mret (Some ErrIatFuture)
      else mret None
  | _ => mret (Some ErrIatMissing)
  end.

(** *** Metadata and decoding *)

Definition getMetaData (j : JwtVerifier W) : M W (result (gmap string value)) :=
  match Discovery j with
  | None => throw NilDereference
  | Some discovery =>
      let metaDataUrl := Issuer j +:+ GetWellKnownUrl discovery in
      match metadataCache j with
      | None => throw NilDereference
      | Some cache =>
          r ← call (Get cache metaDataUrl);
          match r with
          | Err err => mret (Err err)
          | Ok (VMap metadata) => mret (Ok metadata)
          | Ok v => mret (Err (ErrMetadataCast v))
          end
      end
  end.

Definition decodeJwt (j : JwtVerifier W) (jwt : string) : M W (result value) :=
  r ← getMetaData j;
  match r with
  | Err err => mret (Err err)
  | Ok metaData =>
      match index_value metaData "jwks_uri" with
      | VString jwksURI =>
          match Adaptor j with
          | None => throw NilDereference
          | Some adaptor =>
              r ← call (Decode adaptor jwt jwksURI);
              match r with
              | Err err => mret (Err (ErrCouldNotDecode err))
              | Ok resp => mret (Ok resp)
              end
          end
      | _ => mret (Err ErrMissingJwksUri)
      end
  end.

(** [resp.(map[string]interface{})], the one-result form, which panics on
    any other dynamic type. *)
Definition assert_map (resp : value) : M W (gmap string value) :=
  match resp with
  | VMap token => mret token
  | _ => throw (InterfaceConversion resp)
  end.

(** *** The two public flows *)

Definition verdict : Type := (option Jwt * option error)%type.

Definition VerifyAccessToken (j : JwtVerifier W) (jwt : string) : M W verdict :=
  let '(validJwt, err) := isValidJwt jwt in
  if negb validJwt then mret (None, Some (ErrTokenNotValid err))
  else
    r ← decodeJwt j jwt;
    match r with
    | Err err => mret (None, Some err)
    | Ok resp =>
        token ← assert_map resp;
        let myJwt := {| Claims := token |} in
        match validateIss j (index_value token "iss") with
        | Some err => mret (Some myJwt, Some (ErrIssuerNotValidated err))
        | None =>
        match validateAudience j (index_value token "aud") with
        | Some err => mret (Some myJwt, Some (ErrAudienceNotValidated err))
        | None =>
        match validateClientId j (index_value token "cid") with
        | Some err => mret (Some myJwt, Some (ErrClientIdNotValidated err))
        | None =>
        err ← validateExp j (index_value token "exp");
        match err with
        | Some err => mret (Some myJwt, Some (ErrExpirationNotValidated err))
        | None =>
        err ← validateIat j (index_value token "iat");
        match err with
        | Some err => mret (Some myJwt, Some (ErrIssuedAtNotValidated err))
        | None => mret (Some myJwt, None)
        end end end end end
    end.

Definition VerifyIdToken (j : JwtVerifier W) (jwt : string) : M W verdict :=
  let '(validJwt, err) := isValidJwt jwt in
  if negb validJwt then mret (None, Some (ErrTokenNotValid err))
  else
    r ← decodeJwt j jwt;
    match r with
    | Err err => mret (None, Some err)
    | Ok resp =>
        token ← assert_map resp;
        let myJwt := {| Claims := token |} in
        match validateIss j (index_value token "iss") with
        | Some err => mret (Some myJwt, Some (ErrIssuerNotValidated err))
        | None =>
        match validateAudience j (index_value token "aud") with
        | Some err => mret (Some myJwt, Some (ErrAudienceNotValidated err))
        | None =>
        err ← validateExp j (index_value token "exp");
        match err with
        | Some err => mret (Some myJwt, Some (ErrExpirationNotValidated err))
        | None =>
        err ← validateIat j (index_value token "iat");
        match err with
        | Some err => mret (Some myJwt, Some (ErrIssuedAtNotValidated err))
        | None =>
        match validateNonce j (index_value token "nonce") with
        | Some err => mret (Some myJwt, Some (ErrNonceNotValidated err))
        | None => mret (Some myJwt, None)
        end end end end end
    end.

End Verifier.

(** ** The pipeline as the design document words it *)

Section Pipeline.
Context {W : Type} `{RT : Runtime W}.

(** One claim check of the orchestrator: how it runs on the decoded claims,
    and the context its failure is wrapped in. *)
Record check : Type := {
  check_run : JwtVerifier W -> gmap string value -> M W (option error);
  check_wrap : error -> error
}.

Definition check_Issuer : check :=
  {| check_run := fun j token => mret (validateIss j (index_value token "iss"));
     check_wrap := ErrIssuerNotValidated |}.

Definition check_Audience : check :=
  {| check_run := fun j token =>
       mret (validateAudience j (index_value token "aud"));
     check_wrap := ErrAudienceNotValidated |}.

Definition check_ClientId : check :=
  {| check_run := fun j token =>
       mret (validateClientId j (index_value token "cid"));
     check_wrap := ErrClientIdNotValidated |}.

Definition check_Expiry : check :=
  {| check_run := fun j token => validateExp j (index_value token "exp");
     check_wrap := ErrExpirationNotValidated |}.

Definition check_IssuedAt : check :=
  {| check_run := fun j token => validateIat j (index_value token "iat");
     check_wrap := ErrIssuedAtNotValidated |}.

Definition check_Nonce : check :=
  {| check_run := fun j token =>
       mret (validateNonce j (index_value token "nonce"));
     check_wrap := ErrNonceNotValidated |}.

Definition id_token_checks : list check :=
  [check_Issuer; check_Audience; check_Expiry; check_IssuedAt; check_Nonce].

Definition access_token_checks : list check :=
  [check_Issuer; check_Audience; check_ClientId; check_Expiry; check_IssuedAt].

(** Run the checks in list order and stop at the first that fails. *)
Fixpoint first_failure (cs : list check) (j : JwtVerifier W)
  (token : gmap string value) : M W (option error) :=
  match cs with
  | [] => mret None
  | c :: cs' =>
      r ← check_run c j token;
      match r with
      | Some err => mret (Some (check_wrap c err))
      | None => first_failure cs' j token
      end
  end.

(** Structural Validator, then Metadata Cache lookup, then Signature
    Adaptor decode, then the claim checks. *)
Definition pipeline (cs : list check) (j : JwtVerifier W) (jwt : string)
  : M W verdict :=
  match isValidJwt jwt with
  | (false, err) => mret (None, Some (ErrTokenNotValid err))
  | (true, _) =>
      r ← getMetaData j;
      match r with
      | Err err => mret (None, Some err)
      | Ok metaData =>
          match index_value metaData "jwks_uri" with
          | VString jwksURI =>
              match Adaptor j with
              | None => throw NilDereference
              | Some adaptor =>
                  r ← call (Decode adaptor jwt jwksURI);
                  match r with
                  | Err err => mret (None, Some (ErrCouldNotDecode err))
                  | Ok resp =>
                      token ← assert_map resp;
                      err ← first_failure cs j token;
                      mret (Some {| Claims := token |}, err)
                  end
              end
          | _ => mret (None, Some ErrMissingJwksUri)
          end
      end
  end.

(** Every check of the list passes, taking the world from [w] to [w']. *)
Inductive all_pass (j : JwtVerifier W) (token : gmap string value)
  : list check -> W -> W -> Prop :=
| all_pass_nil w : all_pass j token [] w w
| all_pass_cons c cs w w1 w2 :
    check_run c j token w = (Returned None, w1) ->
    all_pass j token cs w1 w2 ->
    all_pass j token (c :: cs) w w2.

(** A check that always returns. *)
Definition check_total (c : check) : Prop :=
  forall j token w, exists r w', check_run c j token w = (Returned r, w').

(** The stage order of a verification flow [V] with claim checks [cs]:
    the structural check first, then the metadata lookup, then the
    adaptor, then the claim checks in list order; the first stage that
    fails decides the returned error, and no later stage runs (the world
    is the one the failing stage left). *)
Definition runs_in_order
  (V : JwtVerifier W -> string -> M W verdict) (cs : list check) : Prop :=
  forall (j : JwtVerifier W) (jwt : string) (w : W),
    (forall err, isValidJwt jwt = (false, err) ->
       V j jwt w = (Returned (None, Some (ErrTokenNotValid err)), w))
    /\ (fst (isValidJwt jwt) = true ->
        (forall err w1, getMetaData j w = (Returned (Err err), w1) ->
           V j jwt w = (Returned (None, Some err), w1))
        /\ (forall metaData w1,
              getMetaData j w = (Returned (Ok metaData), w1) ->
              ((forall uri, index_value metaData "jwks_uri" <> VString uri) ->
                 V j jwt w = (Returned (None, Some ErrMissingJwksUri), w1))
              /\ (forall uri adaptor, 
                    index_value metaData "jwks_uri" = VString uri ->
                    Adaptor j = Some adaptor ->
                    (forall err w2,
                       Decode adaptor jwt uri w1 = (Err err, w2) ->
                       V j jwt w
                       = (Returned (None, Some (ErrCouldNotDecode err)), w2))
                    /\ (forall token w2,
                          Decode adaptor jwt uri w1 = (Ok (VMap token), w2) ->
                          (forall pre c post err w3 w4,
                             cs = pre ++ c :: post ->
                             all_pass j token pre w2 w3 ->
                             check_run c j token w3
                             = (Returned (Some err), w4) ->
                             V j jwt w
                             = (Returned (Some {| Claims := token |},
                                          Some (check_wrap c err)), w4))
                          /\ (forall w3,
                                all_pass j token cs w2 w3 ->
                                V j jwt w
                                = (Returned (Some {| Claims := token |}, None),
                                   w3)))))).

(** When a verification flow [V] hands back the claim set: never when the
    structural check or [decodeJwt] (metadata lookup and adaptor) fails,
    always once the adaptor has decoded a claim mapping, whether the claim
    checks [cs] then pass or one of them fails. *)
Definition attaches_claims
  (V : JwtVerifier W -> string -> M W verdict) (cs : list check) : Prop :=
  forall (j : JwtVerifier W) (jwt : string) (w : W),
    (fst (isValidJwt jwt) = false ->
       exists err, V j jwt w = (Returned (None, Some err), w))
    /\ (fst (isValidJwt jwt) = true ->
        (forall err w1, decodeJwt j jwt w = (Returned (Err err), w1) ->
           V j jwt w = (Returned (None, Some err), w1))
        /\ (forall token w1,
              decodeJwt j jwt w = (Returned (Ok (VMap token)), w1) ->
              exists r w2,
                first_failure cs j token w1 = (Returned r, w2)
                /\ V j jwt w = (Returned (Some {| Claims := token |}, r), w2))).

(** The receiver with another issuer. *)
Definition set_Issuer (iss : string) (j : JwtVerifier W) : JwtVerifier W :=
  {| Issuer := iss; ClaimsToValidate := ClaimsToValidate j;
     Discovery := Discovery j; Adaptor := Adaptor j; Client := Client j;
     Cache := Cache j; metadataCache := metadataCache j;
     leeway := leeway j; Timeout := Timeout j; Cleanup := Cleanup j |}.

End Pipeline.

(** A run of ['/'] bytes. *)
Definition slashes (n : nat) : string := strings_Repeat "/" n.

Fixpoint ends_with_slash (s : string) : bool :=
  match s with
  | EmptyString => false
  | String c EmptyString => Ascii.eqb c "/"
  | String _ s' => ends_with_slash s'
  end.

(** [t] is [s] without its trailing slashes. *)
Definition trimmed_of (s t : string) : Prop :=
  ends_with_slash t = false /\ exists n, s = t +:+ slashes n.

(** A string element other than the expected one: the loop over a JSON
    array moves past it. *)
Definition other_string (expected : string) (x : value) : Prop :=
  exists s, x = VString s /\ s <> expected.

Definition is_string (x : value) : bool :=
  match x with
  | VString _ => true
  | _ => false
  end.

(** Non-empty text over one character class. *)
Definition run_of (cls : list Regexp.range) (t : list ascii) : Prop :=
  t <> [] /\ forallb (Regexp.in_class cls) t = true.

(** The texts [regx] matches in full. *)
Definition regx_shape (t : list ascii) : Prop :=
  exists h b d g y,
    t = h ++ "."%char :: b ++ d ++ g ++ y
    /\ run_of word_class h /\ run_of word_class b
    /\ (d = [] \/ d = ["."%char])
    /\ run_of word_class g /\ run_of tail_class y.

(** ** The accessors, and names for what the checks look at *)

Section Accessors.
Context {W : Type}.



(** The receiver with another [ClaimsToValidate] map. *)
Definition set_ClaimsToValidate (tv : gmap string string) (j : JwtVerifier W)
  : JwtVerifier W :=
  {| Issuer := Issuer j; ClaimsToValidate := tv;
     Discovery := Discovery j; Adaptor := Adaptor j; Client := Client j;
     Cache := Cache j; metadataCache := metadataCache j;
     leeway := leeway j; Timeout := Timeout j; Cleanup := Cleanup j |}.

End Accessors.

(** [strings.Split(jwt, ".")[0]]: the text before the first period. *)
Definition header_segment (jwt : string) : string :=
  hd EmptyString (strings_Split jwt ".").

(** Non-empty text over [[a-zA-Z0-9-_]]. *)
Definition word_text (s : string) : Prop :=
  run_of word_class (list_ascii_of_string s).

(** ** A small concrete world, for examples

    Stand-ins for the collaborators, in the manner of the mock transport of
    the Go tests: a clock that shows a fixed time and a log of the calls
    that crossed the boundary. *)

Module Demo.

Inductive event : Type :=
| EvNow
| EvCacheGet (key : string)
| EvDecode (jwt jwksURI : string).

Record world : Type := { now : Z; log : list event }.

Definition record (ev : event) (w : world) : world :=
  {| now := now w; log := log w ++ [ev] |}.

Definition start : world := {| now := 1700000000; log := [] |}.

Definition header_text : string := "header{alg:RS256,kid:k1}".

Definition header_object : gmap string value :=
  {[ "alg" := VString "RS256"; "kid" := VString "k1" ]}.

Definition token : string := "eyJhbGciOiJSUzI1NiIsImtpZCI6ImsxIn0.e30.c2ln".

Definition metadata : gmap string value :=
  {[ "jwks_uri" := VString "https://example.com/keys" ]}.

Definition claims : gmap string value :=
  {[ "iss" := VString "https://example.com";
     "aud" := VList [VString "api://default"; VString "other"];
     "cid" := VString "client1";
     "exp" := VFloat (float64_of_int64 1700003600);
     "iat" := VFloat (float64_of_int64 1700000000) ]}.

Definition cache : utils_Cacher world :=
  {| Get := fun key w => (Ok (VMap metadata), record (EvCacheGet key) w) |}.

Definition adaptor : adaptors_Adaptor world :=
  {| Decode := fun jwt jwksURI w =>
       (Ok (VMap claims), record (EvDecode jwt jwksURI) w) |}.

(** An adaptor that breaks its contract: success with a value that is not
    a claim mapping. *)
Definition adaptor_text : adaptors_Adaptor world :=
  {| Decode := fun jwt jwksURI w =>
       (Ok (VString "claims"), record (EvDecode jwt jwksURI) w) |}.

Definition int64_trunc (f : spec_float) : Z :=
  match f with
  | S754_finite s m e => cond_Zopp s (Z.shiftl (Zpos m) e)
  | _ => 0
  end.

#[global] Instance runtime : Runtime world := {|
  time_Now_Unix := fun w => (now w, record EvNow w);
  base64_DecodeString := fun s =>
    if String.eqb s "eyJhbGciOiJSUzI1NiIsImtpZCI6ImsxIn0=" then Some header_text
    else None;
  json_Unmarshal := fun s =>
    if String.eqb s header_text then Some header_object else None;
  json_Decode := fun _ => Ok metadata;
  fmt_verb_v := fun _ => "<value>";
  time_ParseDuration := fun s =>
    if String.eqb s "30s" then 30 * Second else 0;
  Duration_Seconds := fun d => float64_of_int64 (d / Second);
  int64_of_float64 := int64_trunc;
  oidc_New := {| GetWellKnownUrl := "/.well-known/openid-configuration" |};
  http_DefaultClient :=
    {| http_Get := fun url w => (Ok {| StatusCode := 200; Body := "" |}, w) |};
  utils_NewDefaultCache := fun lookup timeout cleanup w => (Ok cache, w);
  lestrratGoJwx_New := fun c timeout cleanup client w => (Ok adaptor, w)
|}.

(** [JwtVerifier{Issuer: ..., ClaimsToValidate: ...}] before [New]. *)
Definition config (tv : gmap string string) : JwtVerifier world :=
  {| Issuer := "https://example.com/"; ClaimsToValidate := tv;
     Discovery := None; Adaptor := None; Client := None; Cache := None;
     metadataCache := None; leeway := 0; Timeout := 0; Cleanup := 0 |}.

Definition expected : gmap string string :=
  {[ "aud" := "api://default"; "cid" := "client1" ]}.

(** The verifier [New] makes of [config expected]. *)
Definition verifier : JwtVerifier world :=
  {| Issuer := "https://example.com/"; ClaimsToValidate := expected;
     Discovery := Some oidc_New; Adaptor := Some adaptor;
     Client := Some http_DefaultClient; Cache := Some utils_NewDefaultCache;
     metadataCache := Some cache; leeway := 120;
     Timeout := 5 * Minute; Cleanup := 10 * Minute |}.

(** The same verifier with the adaptor that returns text. *)
Definition verifier_text : JwtVerifier world :=
  {| Issuer := "https://example.com/"; ClaimsToValidate := expected;
     Discovery := Some oidc_New; Adaptor := Some adaptor_text;
     Client := Some http_DefaultClient; Cache := Some utils_NewDefaultCache;
     metadataCache := Some cache; leeway := 120;
     Timeout := 5 * Minute; Cleanup := 10 * Minute |}.

(** A verifier that expects an audience and a client id the token does
    not carry. *)
Definition verifier_strict : JwtVerifier world :=
  {| Issuer := "https://example.com/";
     ClaimsToValidate := {[ "aud" := "nobody"; "cid" := "nobody" ]};
     Discovery := Some oidc_New; Adaptor := Some adaptor;
     Client := Some http_DefaultClient; Cache := Some utils_NewDefaultCache;
     metadataCache := Some cache; leeway := 120;
     Timeout := 5 * Minute; Cleanup := 10 * Minute |}.

(** The world once the metadata has been looked up, and once the adaptor
    has been called after that. *)
Definition looked_up : world :=
  record (EvCacheGet "https://example.com//.well-known/openid-configuration")
         start.

Definition decoded : world :=
  record (EvDecode token "https://example.com/keys") looked_up.

End Demo.

(** *** Configurations on which [New] fails *)

Module DemoFailures.

(** A cache constructor that reports an error. *)
Definition no_cache : cache_ctor Demo.world :=
  fun lookup timeout cleanup w => (Err (ErrForeign "no cache"), w).

(** A configuration with its own adaptor and that cache constructor. *)
Definition config : JwtVerifier Demo.world :=
  {| Issuer := "https://example.com/"; ClaimsToValidate := Demo.expected;
     Discovery := None; Adaptor := Some Demo.adaptor; Client := None;
     Cache := Some no_cache; metadataCache := None; leeway := 0;
     Timeout := 0; Cleanup := 0 |}.

(** The receiver as the failed [New] leaves it. *)
Definition after_New : JwtVerifier Demo.world :=
  {| Issuer := "https://example.com/"; ClaimsToValidate := Demo.expected;
     Discovery := Some oidc_New; Adaptor := Some Demo.adaptor;
     Client := Some http_DefaultClient; Cache := Some no_cache;
     metadataCache := None; leeway := 120;
     Timeout := 5 * Minute; Cleanup := 10 * Minute |}.

End DemoFailures.

(** * Facts

    ** The matcher against the declarative reading of a pattern *)

Module RegexpFacts.
Import Regexp.

Create HintDb regexp.
#[export] Hint Constructors Lang : regexp.

Lemma nullable_Lang r : nullable r = true <-> Lang r [].
Proof.
  split.
  - induction r; simpl; intros H; try discriminate; auto with regexp.
    + apply andb_true_iff in H as [H1 H2].
      change (@nil ascii) with (@nil ascii ++ []). auto with regexp.
    + apply orb_true_iff in H as [H|H]; auto with regexp.
  - intros H. remember [] as t eqn:Et. induction H; simpl; auto; try discriminate.
    + apply app_eq_nil in Et as [-> ->]. rewrite IHLang1, IHLang2; auto.
    + rewrite IHLang; auto.
    + rewrite IHLang; auto using orb_true_r.
Qed.

Lemma Lang_Cat_inv r1 r2 t :
  Lang (Cat r1 r2) t ->
  exists t1 t2, t = t1 ++ t2 /\ Lang r1 t1 /\ Lang r2 t2.
Proof. inversion 1; subst; eauto. Qed.

(** A non-empty word of [Star r] starts with a non-empty word of [r]. *)
Lemma Lang_Star_cons r c t :
  Lang (Star r) (c :: t) ->
  exists t1 t2, t = t1 ++ t2 /\ Lang r (c :: t1) /\ Lang (Star r) t2.
Proof.
  intros H. remember (Star r) as sr eqn:Er. remember (c :: t) as ct eqn:Et.
  revert c t Et. induction H; intros c0 t0 Et; try discriminate.
  injection Er as ->.
  destruct t1 as [|c1 t1]; simpl in Et.
  - apply IHLang2; auto.
  - injection Et as -> <-. eauto.
Qed.

Lemma deriv_Lang r c t : Lang (deriv c r) t <-> Lang r (c :: t).
Proof.
  revert t. induction r; intros t; simpl.
  - split; intros H; inversion H.
  - split; intros H; inversion H.
  - destruct (in_class cls c) eqn:Hc; split; intros H.
    + inversion H; subst. auto with regexp.
    + inversion H; subst. constructor.
    + inversion H.
    + inversion H; subst. congruence.
  - assert (Hcat : forall t, Lang (Cat (deriv c r1) r2) t ->
                             Lang (Cat r1 r2) (c :: t)).
    { intros t' H. inversion H; subst.
      change (c :: t1 ++ t2) with ((c :: t1) ++ t2).
      constructor; auto. apply IHr1; auto. }
    assert (Hinv : forall t, Lang (Cat r1 r2) (c :: t) ->
              Lang (Cat (deriv c r1) r2) t
              \/ (Lang r1 [] /\ Lang r2 (c :: t))).
    { intros t' H. apply Lang_Cat_inv in H as (t1 & t2 & E & H1 & H2).
      destruct t1 as [|c1 t1]; simpl in E.
      - right. subst t2. auto.
      - injection E as <- ->. left. constructor; auto. apply IHr1; auto. }
    destruct (nullable r1) eqn:Hn; split; intros H.
    + inversion H; subst; auto.
      change (c :: t) with ([] ++ c :: t). constructor.
      * apply nullable_Lang; auto.
      * apply IHr2; auto.
    + destruct (Hinv _ H) as [H'|[_ H']]; auto with regexp.
      apply LangAltR, IHr2; auto.
    + auto.
    + destruct (Hinv _ H) as [H'|[H' _]]; auto.
      apply nullable_Lang in H'. congruence.
  - split; intros H; inversion H; subst.
    + apply LangAltL, IHr1; auto.
    + apply LangAltR, IHr2; auto.
    + apply LangAltL, IHr1; auto.
    + apply LangAltR, IHr2; auto.
  - split; intros H.
    + inversion H; subst.
      change (c :: t1 ++ t2) with ((c :: t1) ++ t2).
      constructor; auto. apply IHr; auto.
    + apply Lang_Star_cons in H as (t1 & t2 & -> & H1 & H2).
      constructor; auto. apply IHr; auto.
Qed.

Theorem accepts_Lang r t : accepts r t = true <-> Lang r t.
Proof.
  revert r. induction t as [|c t IH]; intros r; simpl.
  - apply nullable_Lang.
  - rewrite IH. apply deriv_Lang.
Qed.

Theorem search_to_end_spec r t :
  search_to_end r t = true <-> exists skipped m, t = skipped ++ m /\ Lang r m.
Proof.
  induction t as [|c t IH]; simpl; rewrite orb_true_iff.
  - split.
    + intros [H|H]; [|discriminate]. exists [], []. split; auto.
      apply nullable_Lang; auto.
    + intros (p & m & E & H). symmetry in E.
      apply app_eq_nil in E as [-> ->]. left. apply nullable_Lang; auto.
  - rewrite IH. change (accepts (deriv c r) t) with (accepts r (c :: t)).
    rewrite accepts_Lang. split.
    + intros [H|(p & m & -> & H)].
      * exists [], (c :: t). auto.
      * exists (c :: p), m. auto.
    + intros (p & m & E & H). destruct p as [|c' p]; simpl in E.
      * subst m. auto.
      * injection E as -> ->. right. eauto.
Qed.

Lemma Lang_Star_Class cls t :
  Lang (Star (Class cls)) t <-> forallb (in_class cls) t = true.
Proof.
  induction t as [|c t IH]; simpl.
  - split; auto with regexp.
  - rewrite andb_true_iff, <- IH. split.
    + intros H. apply Lang_Star_cons in H as (t1 & t2 & -> & H1 & H2).
      inversion H1; subst. simpl. auto.
    + intros [Hc Ht]. change (c :: t) with ([c] ++ t). auto with regexp.
Qed.

Lemma Lang_Plus_Class cls t :
  Lang (Plus (Class cls)) t <-> run_of cls t.
Proof.
  unfold Plus, run_of. split.
  - intros H. apply Lang_Cat_inv in H as (t1 & t2 & -> & H1 & H2).
    inversion H1; subst. apply Lang_Star_Class in H2. simpl.
    split; [discriminate|]. apply andb_true_iff; auto.
  - intros [Hne Hall]. destruct t as [|c t]; [congruence|].
    simpl in Hall. apply andb_true_iff in Hall as [Hc Ht].
    change (c :: t) with ([c] ++ t). constructor; auto with regexp.
    apply Lang_Star_Class; auto.
Qed.

Lemma Lang_Lit c t : Lang (Lit c) t <-> t = [c].
Proof.
  unfold Lit. split.
  - inversion 1 as [|? c' Hc| | | | |]; subst. f_equal.
    unfold in_class, in_range in Hc. simpl in Hc.
    rewrite orb_false_r in Hc. apply andb_true_iff in Hc as [H1 H2].
    apply Nat.leb_le in H1, H2.
    rewrite <- (ascii_nat_embedding c), <- (ascii_nat_embedding c').
    f_equal. lia.
  - intros ->. constructor. unfold in_class, in_range. simpl.
    rewrite Nat.leb_refl. reflexivity.
Qed.

Lemma Lang_Opt r t : Lang (Opt r) t <-> Lang r t \/ t = [].
Proof.
  unfold Opt. split.
  - inversion 1 as [| | |? ? ? H1|? ? ? H1| |]; subst; auto.
    inversion H1; auto.
  - intros [H| ->]; auto with regexp.
Qed.

(** What [regx] matches in full: word, dot, word, an optional dot, word,
    and a last run in which ['/'] may occur too. *)
Theorem regx_Lang t : Lang regx t <-> regx_shape t.
Proof.
  unfold regx, regx_shape, Group, PlusLazy. split.
  - intros H.
    apply Lang_Cat_inv in H as (h & t1 & -> & Hh & H).
    apply Lang_Cat_inv in H as (dot & t2 & -> & Hdot & H).
    apply Lang_Cat_inv in H as (b & t3 & -> & Hb & H).
    apply Lang_Cat_inv in H as (d & t4 & -> & Hd & H).
    apply Lang_Cat_inv in H as (g & y & -> & Hg & Hy).
    apply Lang_Lit in Hdot as ->.
    apply Lang_Plus_Class in Hh, Hb, Hg, Hy.
    assert (Hd' : d = [] \/ d = ["."%char]).
    { apply Lang_Opt in Hd as [Hd| ->]; auto.
      apply Lang_Lit in Hd as ->. auto. }
    exists h, b, d, g, y. auto 10.
  - intros (h & b & d & g & y & -> & Hh & Hb & Hd & Hg & Hy).
    change (h ++ "."%char :: b ++ d ++ g ++ y)
      with (h ++ ["."%char] ++ b ++ d ++ g ++ y).
    repeat (apply LangCat); try (apply Lang_Plus_Class; assumption).
    + apply Lang_Lit; reflexivity.
    + apply Lang_Opt. destruct Hd as [-> | ->]; auto.
      left. apply Lang_Lit; reflexivity.
Qed.

Lemma list_ascii_of_string_app s1 s2 :
  list_ascii_of_string (s1 +:+ s2)
  = list_ascii_of_string s1 ++ list_ascii_of_string s2.
Proof. induction s1 as [|c s1 IH]; simpl; [|rewrite IH]; reflexivity. Qed.

(** The pattern check passes exactly when some suffix of the text has the
    shape of [regx]; what stands before that suffix is not looked at. *)
Theorem MatchString_regx s :
  MatchString regx s = true
  <-> exists skipped t,
        list_ascii_of_string s = skipped ++ t /\ regx_shape t.
Proof.
  unfold MatchString. rewrite search_to_end_spec.
  split; intros (p & t & E & H); exists p, t; split; auto;
    apply regx_Lang; auto.
Qed.

Lemma MatchString_prepend r junk s :
  MatchString r s = true -> MatchString r (junk +:+ s) = true.
Proof.
  unfold MatchString. rewrite !search_to_end_spec, list_ascii_of_string_app.
  intros (p & t & -> & H). exists (list_ascii_of_string junk ++ p), t.
  rewrite app_assoc. auto.
Qed.

End RegexpFacts.

(** ** Strings *)

Lemma strings_Split_nonempty s sep : strings_Split s sep <> [].
Proof.
  induction s as [|c s IH]; simpl; [discriminate|].
  destruct (Ascii.eqb c sep); [discriminate|].
  destruct (strings_Split s sep); discriminate.
Qed.

Lemma string_mem_slash c : string_mem c "/" = Ascii.eqb c "/".
Proof. simpl. apply orb_false_r. Qed.

Lemma TrimRight_only_slashes n : strings_TrimRight (slashes n) "/" = EmptyString.
Proof.
  induction n as [|n IH]; [reflexivity|].
  change (slashes (S n)) with (String "/" (slashes n)).
  cbn [strings_TrimRight]. rewrite IH. reflexivity.
Qed.

Lemma TrimRight_append_slashes s n :
  strings_TrimRight (s +:+ slashes n) "/" = strings_TrimRight s "/".
Proof.
  induction s as [|c s IH].
  - apply TrimRight_only_slashes.
  - change (String c s +:+ slashes n) with (String c (s +:+ slashes n)).
    cbn [strings_TrimRight]. rewrite IH. reflexivity.
Qed.

Lemma TrimRight_keeps_trimmed t :
  ends_with_slash t = false -> strings_TrimRight t "/" = t.
Proof.
  induction t as [|c t IH]; [reflexivity|].
  destruct t as [|c' t].
  - cbn. rewrite orb_false_r. intros ->. reflexivity.
  - intros H. change (ends_with_slash (String c' t) = false) in H.
    cbn [strings_TrimRight]. cbn [strings_TrimRight] in IH.
    rewrite (IH H). destruct (strings_TrimRight t "/"); reflexivity.
Qed.

Lemma TrimRight_no_trailing_slash s :
  ends_with_slash (strings_TrimRight s "/") = false.
Proof.
  induction s as [|c s IH]; [reflexivity|].
  cbn [strings_TrimRight]. destruct (strings_TrimRight s "/") as [|a t] eqn:E.
  - rewrite string_mem_slash. destruct (Ascii.eqb c "/") eqn:Ec; [reflexivity|].
    simpl. exact Ec.
  - exact IH.
Qed.

Lemma TrimRight_decompose s :
  exists n, s = strings_TrimRight s "/" +:+ slashes n.
Proof.
  induction s as [|c s [n IH]]; [exists O; reflexivity|].
  cbn [strings_TrimRight]. destruct (strings_TrimRight s "/") as [|a t] eqn:E.
  - rewrite string_mem_slash. destruct (Ascii.eqb_spec c "/") as [->|Hc].
    + exists (S n). simpl in IH. rewrite IH at 1. reflexivity.
    + exists n. simpl in *. rewrite IH at 1. reflexivity.
  - exists n. simpl in *. rewrite IH at 1. reflexivity.
Qed.

(** [strings.TrimRight(s, "/")] is [s] without its trailing slashes, and
    nothing else is. *)
Theorem TrimRight_trimmed_of s t :
  strings_TrimRight s "/" = t <-> trimmed_of s t.
Proof.
  split.
  - intros <-. split.
    + apply TrimRight_no_trailing_slash.
    + apply TrimRight_decompose.
  - intros [Hno [n ->]]. rewrite TrimRight_append_slashes.
    apply TrimRight_keeps_trimmed, Hno.
Qed.

(** ** The loops over a list claim *)

Lemma range_strings_cases expected l :
  (range_strings expected l = Some None /\ In expected l)
  \/ (range_strings expected l = None /\ ~ In expected l).
Proof.
  induction l as [|x l IH]; simpl; [right; tauto|].
  destruct (String.eqb_spec x expected) as [->|Hne]; [left; auto|].
  destruct IH as [[-> Hin]|[-> Hnin]]; [left; auto|right].
  split; [reflexivity|]. intros [H|H]; auto.
Qed.

Lemma range_values_cases expected unknown l :
  (range_values expected unknown l = Some None
   /\ exists pre post,
        l = pre ++ VString expected :: post
        /\ Forall (other_string expected) pre)
  \/ (range_values expected unknown l = Some (Some unknown)
      /\ exists pre x post,
           l = pre ++ x :: post
           /\ Forall (other_string expected) pre /\ is_string x = false)
  \/ (range_values expected unknown l = None
      /\ Forall (other_string expected) l).
Proof.
  induction l as [|x l IH]; simpl.
  - right; right. split; [reflexivity|constructor].
  - assert (Hbad : is_string x = false ->
        exists pre y post, x :: l = pre ++ y :: post
          /\ Forall (other_string expected) pre /\ is_string y = false).
    { intros Hx. exists [], x, l. split; [reflexivity|]. split; [constructor|exact Hx]. }
    destruct x as [|s| | | | | |]; try (right; left; split; [reflexivity|auto]).
    destruct (String.eqb_spec s expected) as [->|Hne].
    + left. split; [reflexivity|]. exists [], l. split; [reflexivity|constructor].
    + assert (Hs : other_string expected (VString s)) by (exists s; auto).
      destruct IH as [[-> (pre & post & -> & Hpre)]
                     |[[-> (pre & y & post & -> & Hpre & Hy)]
                      |[-> Hall]]].
      * left. split; [reflexivity|]. exists (VString s :: pre), post.
        split; [reflexivity|constructor; auto].
      * right; left. split; [reflexivity|].
        exists (VString s :: pre), y, post.
        split; [reflexivity|]. split; [constructor; auto|exact Hy].
      * right; right. split; [reflexivity|constructor; auto].
Qed.

(** The three outcomes of the scan exclude one another. *)
Lemma other_string_scan_exclusive expected (l : list value) :
  Forall (other_string expected) l ->
  forall pre x post, l = pre ++ x :: post -> other_string expected x.
Proof.
  intros Hall pre x post ->. apply Forall_app in Hall as [_ Hall].
  inversion Hall; auto.
Qed.

(** ** Machine arithmetic *)

Lemma int64_wrap_small z : - 2 ^ 63 <= z < 2 ^ 63 -> int64_wrap z = z.
Proof.
  intros H. unfold int64_wrap. rewrite Z.mod_small; lia.
Qed.

Lemma digits2_pos_bounds p :
  2 ^ (Zpos (digits2_pos p) - 1) <= Zpos p < 2 ^ Zpos (digits2_pos p).
Proof.
  induction p as [p IH|p IH|]; cbn [digits2_pos].
  - rewrite Pos2Z.inj_succ, Z.pow_succ_r by lia.
    replace (Z.succ (Zpos (digits2_pos p)) - 1) with (Z.succ (Zpos (digits2_pos p) - 1)) by lia.
    rewrite Z.pow_succ_r by lia. lia.
  - rewrite Pos2Z.inj_succ, Z.pow_succ_r by lia.
    replace (Z.succ (Zpos (digits2_pos p)) - 1) with (Z.succ (Zpos (digits2_pos p) - 1)) by lia.
    rewrite Z.pow_succ_r by lia. lia.
  - simpl. lia.
Qed.

Lemma digits2_pos_small p : Zpos p < 2 ^ 53 -> Zpos (digits2_pos p) <= 53.
Proof.
  intros Hp. pose proof (digits2_pos_bounds p) as [Hlo _].
  destruct (Z.le_gt_cases (Zpos (digits2_pos p)) 53) as [H|H]; [exact H|].
  assert (2 ^ 53 <= 2 ^ (Zpos (digits2_pos p) - 1))
    by (apply Z.pow_le_mono_r; lia).
  lia.
Qed.

Lemma digits2_pos_iter_xO p k :
  digits2_pos (Pos.iter xO p k) = (digits2_pos p + k)%positive.
Proof.
  induction k as [|k IH] using Pos.peano_ind.
  - simpl. lia.
  - rewrite Pos.iter_succ. cbn [digits2_pos]. rewrite IH. lia.
Qed.

Lemma Zpos_iter_xO p k : Zpos (Pos.iter xO p k) = Zpos p * 2 ^ Zpos k.
Proof.
  induction k as [|k IH] using Pos.peano_ind.
  - simpl. lia.
  - rewrite Pos.iter_succ, Pos2Z.inj_succ, Z.pow_succ_r by lia.
    rewrite Pos2Z.inj_xO, IH. lia.
Qed.

Lemma binary_round_aux_canonical s mz ez :
  digits2_pos mz = 53%positive -> -1074 <= ez <= 971 ->
  binary_round_aux 53 1024 s (Zpos mz) ez loc_Exact = S754_finite s mz ez.
Proof.
  intros Hd He.
  assert (Hf : fexp 53 1024 (Zpos (digits2_pos mz) + ez) - ez = 0).
  { rewrite Hd. unfold fexp, emin. lia. }
  unfold binary_round_aux, shr_fexp, Zdigits2. rewrite Hf.
  cbn [shr shr_record_of_loc shr_m loc_of_shr_record round_nearest_even].
  rewrite Hf. cbn [shr shr_record_of_loc shr_m].
  destruct (Z.leb_spec ez (1024 - 53)); [reflexivity|lia].
Qed.

Lemma binary_round_small s p :
  Zpos p < 2 ^ 53 ->
  exists m, binary_round 53 1024 s p 0
            = S754_finite s m (Zpos (digits2_pos p) - 53)
         /\ Zpos m = Zpos p * 2 ^ (53 - Zpos (digits2_pos p)).
Proof.
  intros Hp. pose proof (digits2_pos_small p Hp) as Hd.
  unfold binary_round, shl_align.
  replace (fexp 53 1024 (Zpos (digits2_pos p) + 0)) with (Zpos (digits2_pos p) - 53)
    by (unfold fexp, emin; lia).
  rewrite Z.sub_0_r.
  destruct (Zpos (digits2_pos p) - 53) as [|k|k] eqn:Ek; try lia.
  - exists p. assert (E : digits2_pos p = 53%positive) by lia. split.
    + rewrite binary_round_aux_canonical; auto. lia.
    + replace (53 - Zpos (digits2_pos p)) with 0 by lia. lia.
  - exists (Pos.iter xO p k). split.
    + rewrite binary_round_aux_canonical; auto.
      * rewrite digits2_pos_iter_xO. lia.
      * lia.
    + rewrite Zpos_iter_xO. f_equal. f_equal. lia.
Qed.

Lemma SFcompare_round_small p q :
  Zpos p < 2 ^ 53 -> Zpos q < 2 ^ 53 ->
  forall s,
  SFcompare (binary_round 53 1024 s p 0) (binary_round 53 1024 s q 0)
  = Some (if s then CompOpp (Pos.compare p q) else Pos.compare p q).
Proof.
  intros Hp Hq s.
  destruct (binary_round_small s p Hp) as (mp & -> & Emp).
  destruct (binary_round_small s q Hq) as (mq & -> & Emq).
  pose proof (digits2_pos_bounds p) as [Hplo Hphi].
  pose proof (digits2_pos_bounds q) as [Hqlo Hqhi].
  pose proof (digits2_pos_small p Hp) as Hdp.
  assert (Hcmp : match Zpos (digits2_pos p) - 53 ?= Zpos (digits2_pos q) - 53 with
                 | Eq => Pos.compare_cont Eq mp mq
                 | Lt => Lt
                 | Gt => Gt
                 end = Pos.compare p q).
  { destruct (Z.compare_spec (Zpos (digits2_pos p) - 53) (Zpos (digits2_pos q) - 53)) as [E|L|G].
    - change (Pos.compare_cont Eq mp mq) with (Z.compare (Zpos mp) (Zpos mq)).
      change (Pos.compare p q) with (Z.compare (Zpos p) (Zpos q)).
      rewrite Emp, Emq. replace (Zpos (digits2_pos q)) with (Zpos (digits2_pos p)) by lia.
      assert (Hk : 0 < 2 ^ (53 - Zpos (digits2_pos p)))
        by (apply Z.pow_pos_nonneg; lia).
      destruct (Z.compare_spec (Zpos p) (Zpos q)) as [E'|L'|G'].
      + rewrite E'. apply Z.compare_refl.
      + apply Z.compare_lt_iff. nia.
      + apply Z.compare_gt_iff. nia.
    - symmetry. apply Pos.compare_lt_iff.
      assert (2 ^ Zpos (digits2_pos p) <= 2 ^ (Zpos (digits2_pos q) - 1))
        by (apply Z.pow_le_mono_r; lia).
      lia.
    - symmetry. apply Pos.compare_gt_iff.
      assert (2 ^ Zpos (digits2_pos q) <= 2 ^ (Zpos (digits2_pos p) - 1))
        by (apply Z.pow_le_mono_r; lia).
      lia. }
  destruct s; cbn [SFcompare]; rewrite <- Hcmp.
  - destruct (Zpos (digits2_pos p) - 53 ?= Zpos (digits2_pos q) - 53); reflexivity.
  - reflexivity.
Qed.

(** On integers below 2^53 the conversion to [float64] is exact, so
    comparing the floats compares the integers. *)
Theorem float64_of_int64_compare a b :
  Z.abs a < 2 ^ 53 -> Z.abs b < 2 ^ 53 ->
  SFcompare (float64_of_int64 a) (float64_of_int64 b) = Some (a ?= b).
Proof.
  intros Ha Hb. unfold float64_of_int64, binary_normalize.
  destruct a as [|p|p], b as [|q|q]; try reflexivity.
  - destruct (binary_round_small false q) as (m & -> & _); [lia|reflexivity].
  - destruct (binary_round_small true q) as (m & -> & _); [lia|reflexivity].
  - destruct (binary_round_small false p) as (m & -> & _); [lia|reflexivity].
  - rewrite SFcompare_round_small by lia. reflexivity.
  - destruct (binary_round_small false p) as (m & -> & _); [lia|].
    destruct (binary_round_small true q) as (m' & -> & _); [lia|reflexivity].
  - destruct (binary_round_small true p) as (m & -> & _); [lia|reflexivity].
  - destruct (binary_round_small true p) as (m & -> & _); [lia|].
    destruct (binary_round_small false q) as (m' & -> & _); [lia|reflexivity].
  - rewrite SFcompare_round_small by lia. reflexivity.
Qed.

Lemma float64_gt_of_int64 a b :
  Z.abs a < 2 ^ 53 -> Z.abs b < 2 ^ 53 ->
  float64_gt (float64_of_int64 a) (float64_of_int64 b) = (a >? b).
Proof.
  intros Ha Hb. unfold float64_gt, Z.gtb.
  rewrite float64_of_int64_compare by assumption.
  destruct (a ?= b); reflexivity.
Qed.

Lemma float64_lt_of_int64 a b :
  Z.abs a < 2 ^ 53 -> Z.abs b < 2 ^ 53 ->
  float64_lt (float64_of_int64 a) (float64_of_int64 b) = (a <? b).
Proof.
  intros Ha Hb. unfold float64_lt, Z.ltb.
  rewrite float64_of_int64_compare by assumption.
  destruct (a ?= b); reflexivity.
Qed.

(** ** The claim checks *)

Section ClaimCheckFacts.
Context {W : Type} `{RT : Runtime W}.

Lemma validateIss_None (j : JwtVerifier W) (issuer : value) :
  validateIss j issuer = None
  <-> strings_TrimRight (Sprintf_v issuer) "/" = strings_TrimRight (Issuer j) "/".
Proof.
  unfold validateIss, normalizeIssuer. cbn [Sprintf_v].
  destruct (String.eqb_spec (strings_TrimRight (Sprintf_v issuer) "/")
                            (strings_TrimRight (Issuer j) "/")) as [E|N];
    cbn [negb]; split; intros H; congruence.
Qed.

Lemma validateIss_append_slashes (j : JwtVerifier W) (s : string) (n m : nat) :
  validateIss (set_Issuer (Issuer j +:+ slashes n) j) (VString (s +:+ slashes m))
  = validateIss j (VString s).
Proof.
  unfold validateIss, normalizeIssuer. cbn [Sprintf_v set_Issuer Issuer].
  rewrite !TrimRight_append_slashes. reflexivity.
Qed.

(** C7. [validateIss] succeeds exactly when the stringified claim issuer
    and the configured issuer are the same text once the trailing ['/']
    bytes of each are dropped; appending slashes to either side changes
    nothing, and the configured ["https://example.com/"] matches the claim
    ["https://example.com"]. *)
Theorem validateIss_trailing_slash_insensitive
  (j : JwtVerifier W) (issuer : value) :
  (validateIss j issuer = None
   <-> exists core,
         trimmed_of (Sprintf_v issuer) core /\ trimmed_of (Issuer j) core)
  /\ (forall (s : string) (n m : nat),
        validateIss (set_Issuer (Issuer j +:+ slashes n) j)
                    (VString (s +:+ slashes m))
        = validateIss j (VString s))
  /\ validateIss (set_Issuer "https://example.com/" j)
                 (VString "https://example.com") = None.
Proof.
  split; [|split].
  - rewrite validateIss_None. split.
    + intros E. exists (strings_TrimRight (Issuer j) "/").
      split; apply TrimRight_trimmed_of; auto.
    + intros (core & H1 & H2).
      apply TrimRight_trimmed_of in H1, H2. congruence.
  - apply validateIss_append_slashes.
  - reflexivity.
Qed.

Lemma index_string_Some (m : gmap string string) (k v : string) :
  m !! k = Some v -> index_string m k = v.
Proof. unfold index_string. intros ->. reflexivity. Qed.

Lemma iface_eq_string_spec (x : value) (s : string) :
  iface_eq_string x s = true <-> x = VString s.
Proof.
  destruct x; simpl; try (split; [discriminate|intros; discriminate]).
  rewrite String.eqb_eq. split; congruence.
Qed.

(** C3, as the code has it.  Without an expected ["aud"] every claim
    passes.  With one: a string passes iff it is the expected value; a
    [[]string] passes iff it contains it; a JSON array is read from the
    left up to the first element that is the expected value (pass) or is
    not a string (unknown type), and is a mismatch when it holds neither;
    a claim of any other type, an absent one included, is of unknown
    type. *)
Theorem validateAudience_contract (j : JwtVerifier W) (audience : value) :
  match ClaimsToValidate j !! "aud" with
  | None => validateAudience j audience = None
  | Some expected =>
      match audience with
      | VString s =>
          (s = expected /\ validateAudience j audience = None)
          \/ (s <> expected
              /\ validateAudience j audience
                 = Some (ErrAudMismatch audience expected))
      | VStrings l =>
          (In expected l /\ validateAudience j audience = None)
          \/ (~ In expected l
              /\ validateAudience j audience
                 = Some (ErrAudMismatch audience expected))
      | VList l =>
          ((exists pre post,
              l = pre ++ VString expected :: post
              /\ Forall (other_string expected) pre)
           /\ validateAudience j audience = None)
          \/ ((exists pre x post,
                 l = pre ++ x :: post
                 /\ Forall (other_string expected) pre /\ is_string x = false)
              /\ validateAudience j audience = Some ErrAudUnknownType)
          \/ (Forall (other_string expected) l
              /\ validateAudience j audience
                 = Some (ErrAudMismatch audience expected))
      | _ => validateAudience j audience = Some ErrAudUnknownType
      end
  end.
Proof.
  unfold validateAudience.
  destruct (ClaimsToValidate j !! "aud") as [expected|] eqn:E; [|reflexivity].
  rewrite (index_string_Some _ _ _ E).
  destruct audience as [|s|f|b|l|l|m|tag]; cbn [iface_eq_string];
    try reflexivity.
  - destruct (String.eqb_spec s expected) as [->|Hne]; cbn [negb]; auto.
  - destruct (range_strings_cases expected l) as [[-> Hin]|[-> Hnin]]; auto.
  - destruct (range_values_cases expected ErrAudUnknownType l)
      as [[-> H]|[[-> H]|[-> H]]]; auto.
Qed.

Lemma validateClientId_contract (j : JwtVerifier W) (clientId : value) :
  match ClaimsToValidate j !! "cid" with
  | None => validateClientId j clientId = None
  | Some cid =>
      match clientId with
      | VString s =>
          (s = cid /\ validateClientId j clientId = None)
          \/ (s <> cid
              /\ validateClientId j clientId
                 = Some (ErrCidMismatch clientId cid))
      | VStrings l =>
          (In cid l /\ validateClientId j clientId = None)
          \/ (~ In cid l
              /\ validateClientId j clientId
                 = Some (ErrCidMismatch clientId cid))
      | _ => validateClientId j clientId = Some ErrCidUnknownType
      end
  end.
Proof.
  unfold validateClientId.
  destruct (ClaimsToValidate j !! "cid") as [cid|] eqn:E; [|reflexivity].
  destruct clientId as [|s|f|b|l|l|m|tag]; cbn [iface_eq_string negb];
    try reflexivity.
  - destruct (String.eqb_spec s cid) as [->|Hne]; cbn [negb]; auto.
  - destruct (range_strings_cases cid l) as [[-> Hin]|[-> Hnin]]; auto.
Qed.

End ClaimCheckFacts.

(** C3 does not hold as worded.  With ["api://default"] expected, a JSON
    array that holds it before a non-string element passes, although it
    contains a non-string element; the same two elements the other way
    round fail as an unknown type, although the array contains the expected
    value; and a claim that is no string and no list is an unknown type,
    not a mismatch. *)
Lemma validateAudience_mixed_list_counterexample :
  validateAudience Demo.verifier
    (VList [VString "api://default"; VBool true]) = None
  /\ validateAudience Demo.verifier
       (VList [VBool true; VString "api://default"]) = Some ErrAudUnknownType
  /\ validateAudience Demo.verifier (VBool true) = Some ErrAudUnknownType.
Proof. split; [|split]; vm_compute; reflexivity. Qed.

(** C4, at the failing input.  With ["client1"] expected, the JSON array
    [["client1"]] is rejected as an unknown type by [validateClientId],
    while [validateAudience] accepts the array that holds its expected
    value: the [[]interface{}] case of the audience switch is missing from
    the client-id switch. *)
Theorem validateClientId_rejects_json_array :
  validateClientId Demo.verifier (VList [VString "client1"])
  = Some ErrCidUnknownType
  /\ validateAudience Demo.verifier (VList [VString "api://default"]) = None.
Proof. split; vm_compute; reflexivity. Qed.

(** ** Expiry and issued-at *)

Section TimeFacts.
Context {W : Type} `{RT : Runtime W}.

Lemma validateExp_float (j : JwtVerifier W) (f : spec_float) (w : W) :
  validateExp j (VFloat f) w
  = (Returned
       (if float64_gt (float64_of_int64
                         (int64_sub (fst (time_Now_Unix w)) (leeway j))) f
        then Some ErrExpired else None),
     snd (time_Now_Unix w)).
Proof.
  unfold validateExp, mbind, M_bind, call, mret, M_ret.
  destruct (time_Now_Unix w) as [now w']. cbn [fst snd].
  destruct (float64_gt _ f); reflexivity.
Qed.

Lemma validateIat_float (j : JwtVerifier W) (f : spec_float) (w : W) :
  validateIat j (VFloat f) w
  = (Returned
       (if float64_lt (float64_of_int64
                         (int64_add (fst (time_Now_Unix w)) (leeway j))) f
        then Some ErrIatFuture else None),
     snd (time_Now_Unix w)).
Proof.
  unfold validateIat, mbind, M_bind, call, mret, M_ret.
  destruct (time_Now_Unix w) as [now w']. cbn [fst snd].
  destruct (float64_lt _ f); reflexivity.
Qed.

(** C5.  [now] is what the clock shows when the check reads it, [L] the
    configured leeway.  A claim that is not a [float64] (an absent one
    included) is reported missing, without a look at the clock.  A
    [float64] claim [exp] is expired exactly when [float64(now - L) > exp],
    and a [float64] claim [iat] is in the future exactly when
    [float64(now + L) < iat].  For whole seconds below 2^53 these are the
    comparisons [now - L > exp] and [now + L < iat] on integers, so a token
    is turned away only outside [iat - L, exp + L]. *)
Theorem validateExp_validateIat_leeway (j : JwtVerifier W) (x : value) (w : W) :
  let now := fst (time_Now_Unix w) in
  let w' := snd (time_Now_Unix w) in
  let L := leeway j in
  ((forall f, x <> VFloat f) ->
     validateExp j x w = (Returned (Some ErrExpMissing), w)
     /\ validateIat j x w = (Returned (Some ErrIatMissing), w))
  /\ (forall f, x = VFloat f ->
        validateExp j x w
        = (Returned (if float64_gt (float64_of_int64 (int64_sub now L)) f
                     then Some ErrExpired else None), w')
        /\ validateIat j x w
           = (Returned (if float64_lt (float64_of_int64 (int64_add now L)) f
                        then Some ErrIatFuture else None), w'))
  /\ (forall t, x = VFloat (float64_of_int64 t) -> Z.abs t < 2 ^ 53 ->
        (Z.abs (now - L) < 2 ^ 53 ->
           validateExp j x w
           = (Returned (if now - L >? t then Some ErrExpired else None), w'))
        /\ (Z.abs (now + L) < 2 ^ 53 ->
              validateIat j x w
              = (Returned (if now + L <? t then Some ErrIatFuture else None),
                 w'))).
Proof.
  cbv zeta. split; [|split].
  - intros Hx. destruct x; try (split; reflexivity). destruct (Hx f); reflexivity.
  - intros f ->. split; [apply validateExp_float|apply validateIat_float].
  - intros t -> Ht. split; intros Hn.
    + rewrite validateExp_float. unfold int64_sub.
      rewrite int64_wrap_small by lia.
      rewrite float64_gt_of_int64 by assumption. reflexivity.
    + rewrite validateIat_float. unfold int64_add.
      rewrite int64_wrap_small by lia.
      rewrite float64_lt_of_int64 by assumption. reflexivity.
Qed.

End TimeFacts.

(** With the clock at 1700000000 and the default leeway of 120 seconds: a
    token that expired 100 seconds ago still passes, one that expired 1000
    seconds ago does not; a token issued 100 seconds ahead passes, one
    issued 1000 seconds ahead does not. *)
Lemma validateExp_validateIat_leeway_witness :
  validateExp Demo.verifier (VFloat (float64_of_int64 1699999900)) Demo.start
  = (Returned None, Demo.record Demo.EvNow Demo.start)
  /\ validateExp Demo.verifier (VFloat (float64_of_int64 1699999000)) Demo.start
     = (Returned (Some ErrExpired), Demo.record Demo.EvNow Demo.start)
  /\ validateIat Demo.verifier (VFloat (float64_of_int64 1700000100)) Demo.start
     = (Returned None, Demo.record Demo.EvNow Demo.start)
  /\ validateIat Demo.verifier (VFloat (float64_of_int64 1700001000)) Demo.start
     = (Returned (Some ErrIatFuture), Demo.record Demo.EvNow Demo.start).
Proof.
  pose proof (fun t =>
    proj2 (proj2 (validateExp_validateIat_leeway
                    Demo.verifier (VFloat (float64_of_int64 t)) Demo.start))
      t eq_refl) as H.
  cbv zeta in H. cbn [fst snd time_Now_Unix Demo.runtime Demo.start Demo.now
                      leeway Demo.verifier] in H.
  split; [|split; [|split]].
  - exact (proj1 (H 1699999900 eq_refl) eq_refl).
  - exact (proj1 (H 1699999000 eq_refl) eq_refl).
  - exact (proj2 (H 1700000100 eq_refl) eq_refl).
  - exact (proj2 (H 1700001000 eq_refl) eq_refl).
Defined.

(** ** The two flows *)

Section FlowFacts.
Context {W : Type} `{RT : Runtime W}.

Ltac run_M := unfold mbind, M_bind, mret, M_ret, call, throw in *.

Ltac case_on_match :=
  match goal with
  | |- context [match ?x with _ => _ end] => destruct x eqn:?
  end.

Lemma decodeJwt_unfold (j : JwtVerifier W) (jwt : string) (w : W) :
  decodeJwt j jwt w =
  match getMetaData j w with
  | (Panicked p, w1) => (Panicked p, w1)
  | (Returned (Err err), w1) => (Returned (Err err), w1)
  | (Returned (Ok metaData), w1) =>
      match index_value metaData "jwks_uri" with
      | VString jwksURI =>
          match Adaptor j with
          | None => (Panicked NilDereference, w1)
          | Some adaptor =>
              match Decode adaptor jwt jwksURI w1 with
              | (Err err, w2) => (Returned (Err (ErrCouldNotDecode err)), w2)
              | (Ok resp, w2) => (Returned (Ok resp), w2)
              end
          end
      | _ => (Returned (Err ErrMissingJwksUri), w1)
      end
  end.
Proof.
  unfold decodeJwt. run_M.
  destruct (getMetaData j w) as [[[metaData|err]|p] w1]; try reflexivity.
  destruct (index_value metaData "jwks_uri"); try reflexivity.
  destruct (Adaptor j) as [adaptor|]; try reflexivity.
  destruct (Decode adaptor jwt s w1) as [[resp|err] w2]; reflexivity.
Qed.

Lemma pipeline_decodeJwt (cs : list check) (j : JwtVerifier W) (jwt : string)
  (w : W) :
  pipeline cs j jwt w =
  match isValidJwt jwt with
  | (false, err) => (Returned (None, Some (ErrTokenNotValid err)), w)
  | (true, _) =>
      match decodeJwt j jwt w with
      | (Panicked p, w1) => (Panicked p, w1)
      | (Returned (Err err), w1) => (Returned (None, Some err), w1)
      | (Returned (Ok (VMap token)), w1) =>
          match first_failure cs j token w1 with
          | (Returned r, w2) => (Returned (Some {| Claims := token |}, r), w2)
          | (Panicked p, w2) => (Panicked p, w2)
          end
      | (Returned (Ok resp), w1) => (Panicked (InterfaceConversion resp), w1)
      end
  end.
Proof.
  unfold pipeline. rewrite decodeJwt_unfold. unfold assert_map. run_M.
  destruct (isValidJwt jwt) as [[|] err]; try reflexivity.
  destruct (getMetaData j w) as [[[metaData|err']|p] w1]; try reflexivity.
  destruct (index_value metaData "jwks_uri"); try reflexivity.
  destruct (Adaptor j) as [adaptor|]; try reflexivity.
  destruct (Decode adaptor jwt s w1) as [[resp|err'] w2]; try reflexivity.
  destruct resp; try reflexivity.
Qed.

Lemma VerifyIdToken_pipeline (j : JwtVerifier W) (jwt : string) (w : W) :
  VerifyIdToken j jwt w = pipeline id_token_checks j jwt w.
Proof.
  rewrite pipeline_decodeJwt. unfold VerifyIdToken, assert_map.
  cbn [first_failure id_token_checks check_run check_wrap check_Issuer
       check_Audience check_Expiry check_IssuedAt check_Nonce].
  run_M.
  destruct (isValidJwt jwt) as [[|] err]; cbn [negb]; try reflexivity.
  destruct (decodeJwt j jwt w) as [[[resp|err']|p] w1]; try reflexivity.
  destruct resp as [| | | | | |token|]; try reflexivity.
  repeat (case_on_match; try reflexivity).
Qed.

Lemma VerifyAccessToken_pipeline (j : JwtVerifier W) (jwt : string) (w : W) :
  VerifyAccessToken j jwt w = pipeline access_token_checks j jwt w.
Proof.
  rewrite pipeline_decodeJwt. unfold VerifyAccessToken, assert_map.
  cbn [first_failure access_token_checks check_run check_wrap check_Issuer
       check_Audience check_ClientId check_Expiry check_IssuedAt].
  run_M.
  destruct (isValidJwt jwt) as [[|] err]; cbn [negb]; try reflexivity.
  destruct (decodeJwt j jwt w) as [[[resp|err']|p] w1]; try reflexivity.
  destruct resp as [| | | | | |token|]; try reflexivity.
  repeat (case_on_match; try reflexivity).
Qed.

End FlowFacts.

Section StageOrder.
Context {W : Type} `{RT : Runtime W}.

Ltac run_M := unfold mbind, M_bind, mret, M_ret, call, throw in *.

Lemma first_failure_earliest (j : JwtVerifier W) (token : gmap string value)
  (pre : list check) (c : check) (post : list check) (err : error)
  (w0 w1 w2 : W) :
  all_pass j token pre w0 w1 ->
  check_run c j token w1 = (Returned (Some err), w2) ->
  first_failure (pre ++ c :: post) j token w0
  = (Returned (Some (check_wrap c err)), w2).
Proof.
  induction 1 as [w|c' cs w wa wb Hc Hall IH]; intros Hf;
    cbn [app first_failure]; run_M.
  - rewrite Hf. reflexivity.
  - rewrite Hc. apply IH, Hf.
Qed.

Lemma first_failure_all_pass (j : JwtVerifier W) (token : gmap string value)
  (cs : list check) (w0 w1 : W) :
  all_pass j token cs w0 w1 ->
  first_failure cs j token w0 = (Returned None, w1).
Proof.
  induction 1 as [w|c' cs w wa wb Hc Hall IH]; cbn [first_failure]; run_M.
  - reflexivity.
  - rewrite Hc. exact IH.
Qed.

Lemma first_failure_total (j : JwtVerifier W) (token : gmap string value)
  (cs : list check) (w : W) :
  Forall check_total cs ->
  exists r w', first_failure cs j token w = (Returned r, w').
Proof.
  intros Hcs. revert w. induction Hcs as [|c cs Hc _ IH]; intros w;
    cbn [first_failure]; run_M.
  - eauto.
  - destruct (Hc j token w) as (r & w' & ->). destruct r; eauto.
Qed.

Lemma validateExp_total (j : JwtVerifier W) (x : value) (w : W) :
  exists r w', validateExp j x w = (Returned r, w').
Proof.
  destruct x; try (eexists _, _; reflexivity).
  rewrite validateExp_float. eauto.
Qed.

Lemma validateIat_total (j : JwtVerifier W) (x : value) (w : W) :
  exists r w', validateIat j x w = (Returned r, w').
Proof.
  destruct x; try (eexists _, _; reflexivity).
  rewrite validateIat_float. eauto.
Qed.

Lemma id_token_checks_total : Forall check_total id_token_checks.
Proof.
  repeat constructor; intros j token w; cbn [check_run check_Expiry check_IssuedAt];
    first [apply validateExp_total | apply validateIat_total
          | eexists _, _; reflexivity].
Qed.

Lemma access_token_checks_total : Forall check_total access_token_checks.
Proof.
  repeat constructor; intros j token w; cbn [check_run check_Expiry check_IssuedAt];
    first [apply validateExp_total | apply validateIat_total
          | eexists _, _; reflexivity].
Qed.

Lemma pipeline_runs_in_order (cs : list check) : runs_in_order (pipeline cs) cs.
Proof.
  intros j jwt w. split.
  { intros err E. unfold pipeline. rewrite E. reflexivity. }
  intros Hv. unfold pipeline. run_M.
  destruct (isValidJwt jwt) as [[|] e]; [clear Hv|discriminate Hv].
  split.
  { intros err w1 ->. reflexivity. }
  intros metaData w1 ->. split.
  { intros Hn. destruct (index_value metaData "jwks_uri") as [|uri| | | | | |];
      try reflexivity.
    destruct (Hn uri eq_refl). }
  intros uri adaptor -> ->. split.
  { intros err w2 ->. reflexivity. }
  intros token w2 ->. cbn [assert_map]. run_M. split.
  - intros pre c post err w3 w4 -> Hpre Hc.
    rewrite (first_failure_earliest _ _ _ _ _ _ _ _ _ Hpre Hc). reflexivity.
  - intros w3 Hall. rewrite (first_failure_all_pass _ _ _ _ _ Hall). reflexivity.
Qed.

Lemma runs_in_order_ext (V V' : JwtVerifier W -> string -> M W verdict)
  (cs : list check) :
  (forall j jwt w, V j jwt w = V' j jwt w) ->
  runs_in_order V' cs -> runs_in_order V cs.
Proof.
  intros E H j jwt w. rewrite !E. apply H.
Qed.

(** C1.  [VerifyIdToken] runs the structural check, the metadata lookup,
    the adaptor, then the checks Issuer, Audience, Expiry, Issued-At and
    Nonce; [VerifyAccessToken] runs the same stages with the checks Issuer,
    Audience, Client ID, Expiry and Issued-At.  Each stage runs only when
    all before it have passed, and the returned error is that of the
    earliest failing stage. *)
Theorem Verify_stage_order :
  runs_in_order VerifyIdToken id_token_checks
  /\ runs_in_order VerifyAccessToken access_token_checks.
Proof.
  split.
  - apply (runs_in_order_ext _ (pipeline id_token_checks)).
    + apply VerifyIdToken_pipeline.
    + apply pipeline_runs_in_order.
  - apply (runs_in_order_ext _ (pipeline access_token_checks)).
    + apply VerifyAccessToken_pipeline.
    + apply pipeline_runs_in_order.
Qed.

Lemma pipeline_attaches_claims (cs : list check) :
  Forall check_total cs -> attaches_claims (pipeline cs) cs.
Proof.
  intros Hcs j jwt w. rewrite pipeline_decodeJwt.
  destruct (isValidJwt jwt) as [[|] e]; cbn [fst]; split;
    try discriminate; try (intros _).
  - split.
    + intros err w1 ->. reflexivity.
    + intros token w1 ->.
      destruct (first_failure_total j token cs w1 Hcs) as (r & w2 & E).
      exists r, w2. rewrite E. auto.
  - eauto.
Qed.

(** C6.  Both flows return no claim set when the structural check fails or
    when [decodeJwt] (metadata lookup, then the adaptor) fails; once the
    adaptor has decoded a claim mapping they return that claim set, with
    the wrapped error of the first failing claim check or with no error
    when every check passes. *)
Theorem Verify_attaches_claims :
  attaches_claims VerifyIdToken id_token_checks
  /\ attaches_claims VerifyAccessToken access_token_checks.
Proof.
  split; intros j jwt w.
  - rewrite VerifyIdToken_pipeline.
    apply pipeline_attaches_claims, id_token_checks_total.
  - rewrite VerifyAccessToken_pipeline.
    apply pipeline_attaches_claims, access_token_checks_total.
Qed.

End StageOrder.

(** ** Panics *)

Section PanicFacts.
Context {W : Type} `{RT : Runtime W}.

Ltac run_M := unfold mbind, M_bind, mret, M_ret, call, throw in *.

Lemma getMetaData_returns (j : JwtVerifier W) (w : W)
  (disc : discovery_Discovery) (cache : utils_Cacher W) :
  Discovery j = Some disc -> metadataCache j = Some cache ->
  exists r w', getMetaData j w = (Returned r, w').
Proof.
  intros Hd Hc. unfold getMetaData. rewrite Hd, Hc. run_M.
  destruct (Get cache _ w) as [[v|err] w']; [destruct v|]; eauto.
Qed.

Lemma pipeline_panics (cs : list check) (j : JwtVerifier W) (jwt : string)
  (w : W) (disc : discovery_Discovery) (cache : utils_Cacher W)
  (adp : adaptors_Adaptor W) (p : panic) (w' : W) :
  Forall check_total cs ->
  Discovery j = Some disc -> metadataCache j = Some cache ->
  Adaptor j = Some adp ->
  pipeline cs j jwt w = (Panicked p, w')
  <-> fst (isValidJwt jwt) = true
      /\ exists metaData w1 uri resp,
           getMetaData j w = (Returned (Ok metaData), w1)
           /\ index_value metaData "jwks_uri" = VString uri
           /\ Decode adp jwt uri w1 = (Ok resp, w')
           /\ (forall token, resp <> VMap token)
           /\ p = InterfaceConversion resp.
Proof.
  intros Hcs Hd Hc Ha. rewrite pipeline_decodeJwt, decodeJwt_unfold. split.
  - destruct (isValidJwt jwt) as [[|] e]; [|discriminate]. cbn [fst].
    destruct (getMetaData_returns j w disc cache Hd Hc) as (r & w1 & Eg).
    rewrite Eg. destruct r as [metaData|err]; [|discriminate].
    destruct (index_value metaData "jwks_uri") as [|uri| | | | | |] eqn:Eu;
      try discriminate.
    rewrite Ha.
    destruct (Decode adp jwt uri w1) as [[resp|err] w2] eqn:Ed; [|discriminate].
    assert (Hbad : (forall token, resp <> VMap token) ->
              (Panicked (InterfaceConversion resp), w2) = (@Panicked verdict p, w') ->
              true = true
              /\ exists metaData' w1' uri' resp',
                   (Returned (Ok metaData), w1)
                   = (@Returned (result (gmap string value)) (Ok metaData'), w1')
                   /\ index_value metaData' "jwks_uri" = VString uri'
                   /\ Decode adp jwt uri' w1' = (Ok resp', w')
                   /\ (forall token, resp' <> VMap token)
                   /\ p = InterfaceConversion resp').
    { intros Hresp [= <- <-]. split; [reflexivity|].
      exists metaData, w1, uri, resp. auto. }
    destruct resp as [| | | | | |token|]; try (apply Hbad; discriminate).
    destruct (first_failure_total j token cs w2 Hcs) as (r & w3 & ->).
    discriminate.
  - intros (Hv & metaData & w1 & uri & resp & Eg & Eu & Ed & Hresp & ->).
    destruct (isValidJwt jwt) as [[|] e]; [|discriminate Hv].
    rewrite Eg, Eu, Ha, Ed.
    destruct resp as [| | | | | |token|]; try reflexivity.
    destruct (Hresp token eq_refl).
Qed.

(** C9.  For a verifier whose collaborators are set (as [New] leaves them):
    either flow panics exactly when the structural check passed, the
    metadata lookup gave a document with a string ["jwks_uri"], and the
    adaptor's [Decode] reported success with a value that is not a
    [map[string]interface{}]; the panic is the failed type assertion.  If
    [Decode] only ever succeeds with a claim mapping, both flows return. *)
Theorem Verify_panics_iff_decode_not_map
  (j : JwtVerifier W) (jwt : string) (w : W)
  (disc : discovery_Discovery) (cache : utils_Cacher W)
  (adp : adaptors_Adaptor W) :
  Discovery j = Some disc -> metadataCache j = Some cache ->
  Adaptor j = Some adp ->
  (forall V, V = VerifyIdToken \/ V = VerifyAccessToken ->
     forall p w',
       V j jwt w = (Panicked p, w')
       <-> fst (isValidJwt jwt) = true
           /\ exists metaData w1 uri resp,
                getMetaData j w = (Returned (Ok metaData), w1)
                /\ index_value metaData "jwks_uri" = VString uri
                /\ Decode adp jwt uri w1 = (Ok resp, w')
                /\ (forall token, resp <> VMap token)
                /\ p = InterfaceConversion resp)
  /\ ((forall jwt' uri w0 resp w1,
         Decode adp jwt' uri w0 = (Ok resp, w1) -> exists token, resp = VMap token) ->
      forall V, V = VerifyIdToken \/ V = VerifyAccessToken ->
        exists v w', V j jwt w = (Returned v, w')).
Proof.
  intros Hd Hc Ha.
  assert (Hiff : forall V, V = VerifyIdToken \/ V = VerifyAccessToken ->
     forall p w',
       V j jwt w = (Panicked p, w')
       <-> fst (isValidJwt jwt) = true
           /\ exists metaData w1 uri resp,
                getMetaData j w = (Returned (Ok metaData), w1)
                /\ index_value metaData "jwks_uri" = VString uri
                /\ Decode adp jwt uri w1 = (Ok resp, w')
                /\ (forall token, resp <> VMap token)
                /\ p = InterfaceConversion resp).
  { intros V [-> | ->] p w'.
    - rewrite VerifyIdToken_pipeline.
      apply (pipeline_panics _ _ _ _ disc cache); auto using id_token_checks_total.
    - rewrite VerifyAccessToken_pipeline.
      apply (pipeline_panics _ _ _ _ disc cache);
        auto using access_token_checks_total. }
  split; [exact Hiff|].
  intros Hmaps V HV. destruct (V j jwt w) as [[v|p] w'] eqn:E; [eauto|].
  apply (Hiff V HV) in E as (_ & m & w1 & uri & resp & _ & _ & Ed & Hresp & _).
  destruct (Hmaps _ _ _ _ _ Ed) as [token ->]. destruct (Hresp token eq_refl).
Qed.

End PanicFacts.

(** ** Construction *)

Section NewFacts.
Context {W : Type} `{RT : Runtime W}.

Lemma New_success (j j' : JwtVerifier W) (w w' : W) :
  New j w = (j', None, w') ->
  leeway j' = 120
  /\ is_Some (Discovery j') /\ is_Some (Adaptor j')
  /\ is_Some (metadataCache j').
Proof.
  unfold New.
  destruct (Adaptor j) as [adaptor|].
  - destruct (default utils_NewDefaultCache (Cache j) _ _ _ w) as [[mc|err] w1];
      intros [= <- <-]; cbn; eauto.
  - destruct (lestrratGoJwx_New _ _ _ _ w) as [[adp|err] w1]; [|discriminate].
    destruct (default utils_NewDefaultCache (Cache j) _ _ _ w1) as [[mc|err] w2];
      intros [= <- <-]; cbn; eauto.
Qed.

Lemma New_forgets_leeway (j : JwtVerifier W) (l : Z) (w : W) :
  snd (fst (New j w)) = None -> New (set_leeway l j) w = New j w.
Proof.
  unfold New. cbn [set_leeway Adaptor Discovery Timeout Cleanup Client Cache
                   Issuer ClaimsToValidate metadataCache leeway].
  destruct (Adaptor j) as [adaptor|]; [reflexivity|].
  destruct (lestrratGoJwx_New _ _ _ _ w) as [[adp|err] w1]; [reflexivity|].
  discriminate.
Qed.

(** C10.  Whenever [New] returns without error the leeway is 120 seconds,
    whatever it was before; a [SetLeeway] made before [New] leaves no trace
    in the result, and a [SetLeeway] made after it sets the leeway to the
    seconds of the parsed duration. *)
Theorem New_resets_leeway (j j' : JwtVerifier W) (w w' : W) :
  New j w = (j', None, w') ->
  leeway j' = 120
  /\ (forall duration, New (SetLeeway duration j) w = (j', None, w'))
  /\ (forall duration,
        leeway (SetLeeway duration j')
        = int64_of_float64 (Duration_Seconds (time_ParseDuration duration))).
Proof.
  intros H. split; [|split].
  - apply (New_success _ _ _ _ H).
  - intros duration. unfold SetLeeway. rewrite New_forgets_leeway; [exact H|].
    rewrite H. reflexivity.
  - reflexivity.
Qed.

End NewFacts.

(** [New] on a bare configuration, after a [SetLeeway("30s")] or without
    one, gives the same verifier with leeway 120; [SetLeeway("30s")] on the
    result gives leeway 30. *)
Lemma New_resets_leeway_witness :
  leeway Demo.verifier = 120
  /\ New (SetLeeway "30s" (Demo.config Demo.expected)) Demo.start
     = (Demo.verifier, None, Demo.start)
  /\ leeway (SetLeeway "30s" Demo.verifier) = 30.
Proof.
  pose proof (New_resets_leeway (Demo.config Demo.expected) Demo.verifier
                Demo.start Demo.start eq_refl) as (H1 & H2 & H3).
  split; [exact H1|]. split; [exact (H2 "30s")|].
  rewrite (H3 "30s"). vm_compute. reflexivity.
Defined.

(** ** The structural check *)

Section ShapeFacts.
Context {W : Type} `{RT : Runtime W}.

Lemma isValidJwt_shape_error (jwt : string) :
  snd (isValidJwt jwt) = Some ErrTokenShape
  <-> jwt <> EmptyString /\ jwtRegex jwt = false.
Proof.
  unfold isValidJwt.
  destruct (String.eqb_spec jwt "") as [->|Hne].
  { cbn. split; [discriminate|intros [H _]; congruence]. }
  destruct (jwtRegex jwt); cbn [negb snd]; [|tauto].
  split; [|intros [_ H]; discriminate].
  destruct (base64_DecodeString _); [|discriminate].
  destruct (json_Unmarshal _); [|discriminate].
  repeat (match goal with
          | |- context [if ?b then _ else _] => destruct b
          end; try discriminate).
Qed.

Lemma isValidJwt_flag (jwt : string) :
  fst (isValidJwt jwt) = false -> snd (isValidJwt jwt) <> None.
Proof.
  unfold isValidJwt.
  repeat (match goal with
          | |- context [if ?b then _ else _] => destruct b
          | |- context [match ?x with Some _ => _ | None => _ end] => destruct x
          end; try discriminate).
Qed.

(** C2, at the failing input.  ["@a.bcd"] holds a byte outside the
    alphabet, ['.'] and ['/'], yet passes the pattern check: the pattern is
    pinned to the end of the text only, and whatever stands before a
    matching suffix is not looked at.  So [isValidJwt], the structural
    stage of both flows, does not report the malformed-shape error for it.
    ["a.b"], one pair of segments over the alphabet, does not pass. *)
Theorem jwtRegex_ignores_what_precedes :
  jwtRegex "@a.bcd" = true
  /\ (forall junk jwt, jwtRegex jwt = true -> jwtRegex (junk +:+ jwt) = true)
  /\ snd (isValidJwt "@a.bcd") <> Some ErrTokenShape
  /\ jwtRegex "a.b" = false.
Proof.
  assert (Hre : jwtRegex "@a.bcd" = true) by (vm_compute; reflexivity).
  split; [exact Hre|]. split; [|split].
  - intros junk jwt. apply RegexpFacts.MatchString_prepend.
  - rewrite isValidJwt_shape_error. intros [_ H]. congruence.
  - vm_compute. reflexivity.
Qed.

End ShapeFacts.

(** ** Runs in the example world *)

(** An access token whose audience and client id both differ from the
    expected ones is turned away for its audience, the earlier check, and
    the clock is never read; a text without a period is turned away by the
    structural check before anything is looked up. *)
Lemma Verify_stage_order_witness :
  VerifyAccessToken Demo.verifier_strict Demo.token Demo.start
  = (Returned
       (Some {| Claims := Demo.claims |},
        Some (ErrAudienceNotValidated
                (ErrAudMismatch
                   (VList [VString "api://default"; VString "other"])
                   "nobody"))),
     Demo.decoded)
  /\ VerifyIdToken Demo.verifier "aa" Demo.start
     = (Returned (None, Some (ErrTokenNotValid (Some ErrTokenShape))),
        Demo.start).
Proof.
  destruct (@Verify_stage_order Demo.world _) as [Hid Hacc]. split.
  - destruct (Hacc Demo.verifier_strict Demo.token Demo.start) as [_ H1].
    assert (Ev : fst (isValidJwt Demo.token) = true) by (vm_compute; reflexivity).
    destruct (H1 Ev) as [_ H2].
    assert (Em : getMetaData Demo.verifier_strict Demo.start
                 = (Returned (Ok Demo.metadata), Demo.looked_up))
      by (vm_compute; reflexivity).
    destruct (H2 _ _ Em) as [_ H3].
    assert (Eu : index_value Demo.metadata "jwks_uri"
                 = VString "https://example.com/keys")
      by (vm_compute; reflexivity).
    destruct (H3 _ Demo.adaptor Eu eq_refl) as [_ H4].
    destruct (H4 Demo.claims Demo.decoded eq_refl) as [H5 _].
    apply (H5 [check_Issuer] check_Audience
              [check_ClientId; check_Expiry; check_IssuedAt]
              _ Demo.decoded Demo.decoded eq_refl).
    + apply all_pass_cons with (w1 := Demo.decoded).
      * vm_compute. reflexivity.
      * apply all_pass_nil.
    + vm_compute. reflexivity.
  - destruct (Hid Demo.verifier "aa" Demo.start) as [H1 _].
    apply H1. vm_compute. reflexivity.
Defined.

(** No claim set for a text that fails the structural check; the decoded
    claim set, with the error, for a token that fails a claim check. *)
Lemma Verify_attaches_claims_witness :
  (exists err,
     VerifyIdToken Demo.verifier "aa" Demo.start
     = (Returned (None, Some err), Demo.start))
  /\ (exists r w2,
        first_failure access_token_checks Demo.verifier_strict Demo.claims
          Demo.decoded = (Returned r, w2)
        /\ VerifyAccessToken Demo.verifier_strict Demo.token Demo.start
           = (Returned (Some {| Claims := Demo.claims |}, r), w2)).
Proof.
  destruct (@Verify_attaches_claims Demo.world _) as [Hid Hacc]. split.
  - destruct (Hid Demo.verifier "aa" Demo.start) as [H _].
    apply H. vm_compute. reflexivity.
  - destruct (Hacc Demo.verifier_strict Demo.token Demo.start) as [_ H].
    assert (Ev : fst (isValidJwt Demo.token) = true) by (vm_compute; reflexivity).
    destruct (H Ev) as [_ H2]. apply H2. vm_compute. reflexivity.
Defined.

(** With the adaptor that returns text both flows panic on the type
    assertion, after the lookup and the decode; with the adaptor that
    returns a claim mapping they return. *)
Lemma Verify_panics_iff_decode_not_map_witness :
  VerifyIdToken Demo.verifier_text Demo.token Demo.start
  = (Panicked (InterfaceConversion (VString "claims")), Demo.decoded)
  /\ VerifyAccessToken Demo.verifier_text Demo.token Demo.start
     = (Panicked (InterfaceConversion (VString "claims")), Demo.decoded)
  /\ (exists v w', VerifyIdToken Demo.verifier Demo.token Demo.start
                   = (Returned v, w')).
Proof.
  pose proof (Verify_panics_iff_decode_not_map Demo.verifier_text Demo.token
                Demo.start _ _ _ eq_refl eq_refl eq_refl) as [Hiff _].
  pose proof (Verify_panics_iff_decode_not_map Demo.verifier Demo.token
                Demo.start _ _ _ eq_refl eq_refl eq_refl) as [_ Hret].
  assert (Hbad : fst (isValidJwt Demo.token) = true
            /\ exists metaData w1 uri resp,
                 getMetaData Demo.verifier_text Demo.start
                 = (Returned (Ok metaData), w1)
                 /\ index_value metaData "jwks_uri" = VString uri
                 /\ Decode Demo.adaptor_text Demo.token uri w1
                    = (Ok resp, Demo.decoded)
                 /\ (forall token, resp <> VMap token)
                 /\ InterfaceConversion (VString "claims")
                    = InterfaceConversion resp).
  { split; [vm_compute; reflexivity|].
    exists Demo.metadata, Demo.looked_up, "https://example.com/keys",
           (VString "claims").
    split; [vm_compute; reflexivity|]. split; [vm_compute; reflexivity|].
    split; [reflexivity|]. split; [discriminate|reflexivity]. }
  split; [|split].
  - apply (Hiff VerifyIdToken (or_introl eq_refl)), Hbad.
  - apply (Hiff VerifyAccessToken (or_intror eq_refl)), Hbad.
  - apply (Hret (fun jwt' uri w0 resp w1 (E : Decode Demo.adaptor jwt' uri w0
                                             = (Ok resp, w1)) =>
                   ex_intro _ Demo.claims
                     (f_equal (fun r => match fst r with
                                        | Ok v => v
                                        | Err _ => resp
                                        end) (eq_sym E)))
                VerifyIdToken (or_introl eq_refl)).
Defined.

(** * Further facts

    ** The pattern check *)

Section PatternFacts.
Context {W : Type} `{RT : Runtime W}.

Lemma string_mem_In (c : ascii) (s : string) :
  string_mem c s = true <-> In c (list_ascii_of_string s).
Proof.
  induction s as [|d s IH]; simpl; [split; [discriminate|tauto]|].
  rewrite orb_true_iff, IH, Ascii.eqb_eq. split; intros [H|H]; auto.
Qed.

Lemma string_length_list (s : string) :
  String.length s = length (list_ascii_of_string s).
Proof. induction s as [|c s IH]; simpl; [|rewrite IH]; reflexivity. Qed.

Lemma run_of_length (cls : list Regexp.range) (t : list ascii) :
  run_of cls t -> (1 <= length t)%nat.
Proof. intros [Hne _]. destruct t; [congruence|simpl; lia]. Qed.

Lemma regx_shape_period_and_length (t : list ascii) :
  regx_shape t -> In "."%char t /\ (5 <= length t)%nat.
Proof.
  intros (h & b & d & g & y & -> & Hh & Hb & _ & Hg & Hy).
  apply run_of_length in Hh, Hb, Hg, Hy. split.
  - apply in_or_app. right. left. reflexivity.
  - rewrite length_app. cbn [length]. rewrite !length_app. lia.
Qed.

(** The pattern check of [isValidJwt] passes exactly when the text ends in
    a run of word bytes, a period, a run of word bytes, an optional period,
    one more run of word bytes and a last run in which ['/'] may occur as
    well; the bytes before that suffix are arbitrary. *)
Theorem jwtRegex_accepts_iff_suffix_shape (jwt : string) :
  jwtRegex jwt = true
  <-> exists skipped t,
        list_ascii_of_string jwt = skipped ++ t /\ regx_shape t.
Proof. apply RegexpFacts.MatchString_regx. Qed.

Lemma jwtRegex_needs_period_and_length (jwt : string) :
  jwtRegex jwt = true ->
  string_mem "." jwt = true /\ (5 <= String.length jwt)%nat.
Proof.
  intros H. apply RegexpFacts.MatchString_regx in H as (p & t & E & Ht).
  apply regx_shape_period_and_length in Ht as [Hin Hlen]. split.
  - apply string_mem_In. rewrite E. apply in_or_app. auto.
  - rewrite string_length_list, E, length_app. lia.
Qed.

(** A non-empty text without a period, or of fewer than five bytes, is
    turned away by [isValidJwt] with the error of the pattern check, before
    any decoding of the header. *)
Theorem isValidJwt_rejects_dotless_or_short (jwt : string) :
  jwt <> EmptyString ->
  string_mem "." jwt = false \/ (String.length jwt < 5)%nat ->
  isValidJwt jwt = (false, Some ErrTokenShape).
Proof.
  intros Hne Hbad. unfold isValidJwt.
  destruct (String.eqb_spec jwt "") as [->|_]; [congruence|].
  destruct (jwtRegex jwt) eqn:Hre; [|reflexivity].
  apply jwtRegex_needs_period_and_length in Hre as [Hdot Hlen].
  destruct Hbad as [Hbad|Hbad]; [congruence|lia].
Qed.

Lemma in_class_tail_of_word (c : ascii) :
  Regexp.in_class word_class c = true -> Regexp.in_class tail_class c = true.
Proof.
  intros H. unfold tail_class. cbn [Regexp.in_class existsb].
  apply orb_true_iff. right. exact H.
Qed.

Lemma forallb_tail_of_word (t : list ascii) :
  forallb (Regexp.in_class word_class) t = true ->
  forallb (Regexp.in_class tail_class) t = true.
Proof.
  induction t as [|c t IH]; [reflexivity|]. cbn [forallb].
  rewrite !andb_true_iff. intros [Hc Ht]. auto using in_class_tail_of_word.
Qed.

(** A compact token of three non-empty segments over [[a-zA-Z0-9-_]], the
    last of two bytes or more, passes the pattern check, so [isValidJwt]
    never reports the malformed-shape error for it. *)
Theorem jwtRegex_accepts_three_segments (h b s : string) :
  word_text h -> word_text b -> word_text s -> (2 <= String.length s)%nat ->
  jwtRegex (h +:+ "." +:+ b +:+ "." +:+ s) = true
  /\ snd (isValidJwt (h +:+ "." +:+ b +:+ "." +:+ s)) <> Some ErrTokenShape.
Proof.
  intros Hh Hb Hs Hlen.
  assert (Hre : jwtRegex (h +:+ "." +:+ b +:+ "." +:+ s) = true).
  { apply RegexpFacts.MatchString_regx. exists [].
    exists (list_ascii_of_string (h +:+ "." +:+ b +:+ "." +:+ s)).
    split; [reflexivity|].
    rewrite !RegexpFacts.list_ascii_of_string_app.
    unfold word_text in Hs. rewrite string_length_list in Hlen.
    destruct (list_ascii_of_string s) as [|c1 [|c2 y]] eqn:Es;
      cbn [length] in Hlen; try lia.
    destruct Hs as [_ Hall]. cbn [forallb] in Hall.
    apply andb_true_iff in Hall as [Hc1 Hrest].
    exists (list_ascii_of_string h), (list_ascii_of_string b), ["."%char],
           [c1], (c2 :: y).
    split; [reflexivity|]. split; [exact Hh|]. split; [exact Hb|].
    split; [auto|]. split.
    - split; [discriminate|]. cbn [forallb]. rewrite Hc1. reflexivity.
    - split; [discriminate|]. apply forallb_tail_of_word, Hrest. }
  split; [exact Hre|].
  rewrite isValidJwt_shape_error. intros [_ H]. congruence.
Qed.

End PatternFacts.

(** The token of the examples is such a token. *)
Lemma jwtRegex_accepts_three_segments_witness :
  jwtRegex Demo.token = true
  /\ snd (isValidJwt Demo.token) <> Some ErrTokenShape.
Proof.
  apply (jwtRegex_accepts_three_segments
           "eyJhbGciOiJSUzI1NiIsImtpZCI6ImsxIn0" "e30" "c2ln").
  - split; [discriminate|vm_compute; reflexivity].
  - split; [discriminate|vm_compute; reflexivity].
  - split; [discriminate|vm_compute; reflexivity].
  - vm_compute. lia.
Defined.

(** ["aa"], the text of the formatting tests, has no period. *)
Lemma isValidJwt_rejects_dotless_or_short_witness :
  isValidJwt "aa" = (false, Some ErrTokenShape).
Proof.
  apply isValidJwt_rejects_dotless_or_short.
  - discriminate.
  - left. reflexivity.
Defined.

(** ** The header *)

Section HeaderFacts.
Context {W : Type} `{RT : Runtime W}.

Lemma string_length_app (s1 s2 : string) :
  String.length (s1 +:+ s2) = (String.length s1 + String.length s2)%nat.
Proof.
  induction s1 as [|c s1 IH]; [reflexivity|].
  change (String c s1 +:+ s2) with (String c (s1 +:+ s2)).
  cbn [String.length]. rewrite IH. reflexivity.
Qed.

Lemma strings_Repeat_length (c : ascii) (n : nat) :
  String.length (strings_Repeat (String c EmptyString) n) = n.
Proof.
  induction n as [|n IH]; [reflexivity|].
  change (strings_Repeat (String c EmptyString) (S n))
    with (String c (strings_Repeat (String c EmptyString) n)).
  change (String.length (String c (strings_Repeat (String c EmptyString) n)))
    with (S (String.length (strings_Repeat (String c EmptyString) n))).
  rewrite IH. reflexivity.
Qed.

Lemma string_app_empty_r (s : string) : s +:+ EmptyString = s.
Proof.
  induction s as [|c s IH]; [reflexivity|].
  change (String c s +:+ EmptyString) with (String c (s +:+ EmptyString)).
  rewrite IH. reflexivity.
Qed.

(** [padHeader] appends between zero and three ['='] bytes, as many as
    bring the length to the next multiple of four; a header whose length
    is a multiple of four is left as it is, so padding twice is padding
    once. *)
Theorem padHeader_pads_to_multiple_of_four (header : string) :
  (String.length (padHeader header) mod 4 = 0)%nat
  /\ (exists k, (k < 4)%nat
                /\ padHeader header = header +:+ strings_Repeat "=" k
                /\ String.length (padHeader header)
                   = (String.length header + k)%nat)
  /\ ((String.length header mod 4 = 0)%nat -> padHeader header = header)
  /\ padHeader (padHeader header) = padHeader header.
Proof.
  assert (Hlen : (String.length (padHeader header) mod 4 = 0)%nat).
  { unfold padHeader.
    destruct (Nat.eqb_spec (String.length header mod 4) 0) as [E|N]; [exact E|].
    rewrite string_length_app, strings_Repeat_length.
    pose proof (Nat.mod_upper_bound (String.length header) 4 ltac:(lia)) as Hub.
    pose proof (Nat.div_mod_eq (String.length header) 4) as Hdm.
    replace (String.length header + (4 - String.length header mod 4))%nat
      with ((1 + String.length header / 4) * 4)%nat by lia.
    apply Nat.Div0.mod_mul. }
  assert (Hfix : forall h, (String.length h mod 4 = 0)%nat -> padHeader h = h).
  { intros h E. unfold padHeader. rewrite E. reflexivity. }
  split; [exact Hlen|]. split; [|split; [apply Hfix|apply Hfix, Hlen]].
  unfold padHeader.
  destruct (Nat.eqb_spec (String.length header mod 4) 0) as [E|N].
  - exists O. cbn [strings_Repeat]. rewrite string_app_empty_r.
    split; [lia|]. split; [reflexivity|lia].
  - pose proof (Nat.mod_upper_bound (String.length header) 4 ltac:(lia)) as Hub.
    exists (4 - String.length header mod 4)%nat.
    split; [lia|]. split; [reflexivity|].
    rewrite string_length_app, strings_Repeat_length. reflexivity.
Qed.

Lemma header_segment_cons (c : ascii) (s : string) :
  c <> "."%char -> header_segment (String c s) = String c (header_segment s).
Proof.
  intros Hc. unfold header_segment. cbn [strings_Split].
  destruct (Ascii.eqb_spec c ".") as [E|_]; [congruence|].
  destruct (strings_Split s ".") as [|p ps] eqn:E; [|reflexivity].
  destruct (strings_Split_nonempty _ _ E).
Qed.

Lemma header_segment_before_period (h rest : string) :
  string_mem "." h = false -> header_segment (h +:+ "." +:+ rest) = h.
Proof.
  induction h as [|c h IH]; intros Hh.
  - reflexivity.
  - cbn [string_mem] in Hh. apply orb_false_iff in Hh as [Hc Hh].
    change (String c h +:+ "." +:+ rest) with (String c (h +:+ "." +:+ rest)).
    rewrite header_segment_cons.
    + rewrite IH by exact Hh. reflexivity.
    + intros ->. rewrite Ascii.eqb_refl in Hc. discriminate.
Qed.

Lemma isValidJwt_after_pattern (jwt : string) :
  jwt <> EmptyString -> jwtRegex jwt = true ->
  isValidJwt jwt =
  match base64_DecodeString (padHeader (header_segment jwt)) with
  | None => (false, Some ErrHeaderNotBase64)
  | Some headerDecoded =>
      match json_Unmarshal headerDecoded with
      | None => (false, Some ErrHeaderNotJson)
      | Some jsonObject =>
          match jsonObject !! "alg", jsonObject !! "kid" with
          | None, _ => (false, Some ErrHeaderNoAlg)
          | Some _, None => (false, Some ErrHeaderNoKid)
          | Some alg, Some _ =>
              if iface_eq_string alg "RS256" then (true, None)
              else (false, Some ErrAlgNotRS256)
          end
      end
  end.
Proof.
  intros Hne Hre. unfold isValidJwt, header_segment, index_value.
  destruct (String.eqb_spec jwt "") as [E|_]; [congruence|].
  rewrite Hre. cbn [negb].
  destruct (base64_DecodeString _) as [headerDecoded|]; [|reflexivity].
  destruct (json_Unmarshal headerDecoded) as [jsonObject|]; [|reflexivity].
  destruct (jsonObject !! "alg") as [alg|] eqn:Ealg;
    destruct (jsonObject !! "kid") as [kid|] eqn:Ekid;
    repeat (rewrite bool_decide_eq_true_2 by eauto);
    repeat (rewrite bool_decide_eq_false_2 by (intros [? ?]; discriminate));
    cbn [negb default from_option id]; try reflexivity.
  destruct (iface_eq_string alg "RS256"); reflexivity.
Qed.

(** [isValidJwt] accepts a text exactly when it is not empty, passes the
    pattern check, its first segment, padded, decodes as base64 to JSON
    for an object that has an ["alg"] equal to the string ["RS256"] and
    has a ["kid"] (of whatever value).  The flag it returns is true
    exactly when the error it returns is nil. *)
Theorem isValidJwt_accepts_iff (jwt : string) :
  (isValidJwt jwt = (true, None)
   <-> jwt <> EmptyString /\ jwtRegex jwt = true
       /\ exists headerDecoded jsonObject,
            base64_DecodeString (padHeader (header_segment jwt))
            = Some headerDecoded
            /\ json_Unmarshal headerDecoded = Some jsonObject
            /\ jsonObject !! "alg" = Some (VString "RS256")
            /\ is_Some (jsonObject !! "kid"))
  /\ (fst (isValidJwt jwt) = true <-> snd (isValidJwt jwt) = None).
Proof.
  destruct (String.eqb_spec jwt "") as [->|Hne].
  { cbn. split; split; try discriminate. intros [H _]. congruence. }
  destruct (jwtRegex jwt) eqn:Hre.
  2:{ unfold isValidJwt. destruct (String.eqb_spec jwt ""); [congruence|].
      rewrite Hre. cbn. split; split; try discriminate.
      intros (_ & H & _). discriminate. }
  rewrite (isValidJwt_after_pattern jwt Hne Hre).
  destruct (base64_DecodeString _) as [headerDecoded|] eqn:Eb.
  2:{ cbn. split; split; try discriminate.
      intros (_ & _ & ? & ? & H & _). discriminate. }
  destruct (json_Unmarshal headerDecoded) as [jsonObject|] eqn:Ej.
  2:{ cbn. split; split; try discriminate.
      intros (_ & _ & ? & ? & [= <-] & H & _). congruence. }
  destruct (jsonObject !! "alg") as [alg|] eqn:Ealg.
  2:{ cbn. split; split; try discriminate.
      intros (_ & _ & ? & ? & [= <-] & H & Ha & _). congruence. }
  destruct (jsonObject !! "kid") as [kid|] eqn:Ekid.
  2:{ cbn. split; split; try discriminate.
      intros (_ & _ & ? & ? & [= <-] & H & _ & [? Hk]). congruence. }
  destruct (iface_eq_string alg "RS256") eqn:Ea.
  - apply iface_eq_string_spec in Ea as ->. cbn. split; split; auto.
    intros _. split; [exact Hne|]. split; [reflexivity|].
    exists headerDecoded, jsonObject. eauto.
  - cbn. split; split; try discriminate.
    intros (_ & _ & ? & ? & [= <-] & H & Ha & _).
    assert (alg = VString "RS256") as -> by congruence.
    cbn in Ea. discriminate.
Qed.

(** Once the pattern check has passed, [isValidJwt] looks at the first
    segment only: two tokens with the same header get the same answer,
    whatever their payload and signature segments are. *)
Theorem isValidJwt_reads_header_only (h rest1 rest2 : string) :
  string_mem "." h = false ->
  jwtRegex (h +:+ "." +:+ rest1) = true ->
  jwtRegex (h +:+ "." +:+ rest2) = true ->
  isValidJwt (h +:+ "." +:+ rest1) = isValidJwt (h +:+ "." +:+ rest2).
Proof.
  intros Hh H1 H2.
  assert (Hne : forall r, h +:+ "." +:+ r <> EmptyString)
    by (intros r; destruct h; discriminate).
  rewrite (isValidJwt_after_pattern _ (Hne rest1) H1).
  rewrite (isValidJwt_after_pattern _ (Hne rest2) H2).
  rewrite !header_segment_before_period by exact Hh. reflexivity.
Qed.

End HeaderFacts.

(** The token of the examples and the same header before another payload
    and signature. *)
Lemma isValidJwt_reads_header_only_witness :
  isValidJwt Demo.token
  = isValidJwt "eyJhbGciOiJSUzI1NiIsImtpZCI6ImsxIn0.AAAA.BBBB".
Proof.
  apply (isValidJwt_reads_header_only
           "eyJhbGciOiJSUzI1NiIsImtpZCI6ImsxIn0" "e30.c2ln" "AAAA.BBBB");
    vm_compute; reflexivity.
Defined.

(** ** Issuer and nonce *)

Section IssuerNonceFacts.
Context {W : Type} `{RT : Runtime W}.

(** [normalizeIssuer] never returns a text that ends in ['/'], and
    normalizing its result again changes nothing; so a verifier accepts
    its own configured issuer as the claim, with or without trailing
    slashes on either. *)
Theorem normalizeIssuer_idempotent (j : JwtVerifier W) (s : value) :
  ends_with_slash (normalizeIssuer s) = false
  /\ normalizeIssuer (VString (normalizeIssuer s)) = normalizeIssuer s
  /\ validateIss j (VString (Issuer j)) = None
  /\ validateIss j (VString (normalizeIssuer (VString (Issuer j)))) = None.
Proof.
  unfold normalizeIssuer. cbn [Sprintf_v].
  split; [apply TrimRight_no_trailing_slash|].
  split; [apply TrimRight_keeps_trimmed, TrimRight_no_trailing_slash|].
  split; apply validateIss_None; cbn [Sprintf_v]; [reflexivity|].
  apply TrimRight_keeps_trimmed, TrimRight_no_trailing_slash.
Qed.

(** [validateNonce] passes exactly when the claim is the string that is
    configured under ["nonce"], an absent claim counting as the empty
    string and an absent configuration entry as the empty string too.
    A claim of any other type never passes, and every failure is the
    nonce mismatch. *)
Theorem validateNonce_passes_iff (j : JwtVerifier W) (nonce : value) :
  let expected := index_string (ClaimsToValidate j) "nonce" in
  (validateNonce j nonce = None
   <-> (nonce = VNil /\ expected = EmptyString) \/ nonce = VString expected)
  /\ (validateNonce j nonce <> None ->
      exists shown, validateNonce j nonce = Some (ErrNonceMismatch shown expected))
  /\ (is_string nonce = false -> nonce <> VNil -> validateNonce j nonce <> None).
Proof.
  cbv zeta. unfold validateNonce.
  set (expected := index_string (ClaimsToValidate j) "nonce").
  destruct nonce as [|s|f|b|l|l|m|tag]; cbn [iface_eq_string is_string negb];
    try (split; [split; [discriminate|intros [[? _]|?]; discriminate]
                |split; [eauto|intros _ _; discriminate]]).
  - destruct (String.eqb_spec "" expected) as [E|N]; cbn [negb].
    + split; [split; [intros _; left; auto|reflexivity]|].
      split; [congruence|intros _ H; destruct (H eq_refl)].
    + split; [split; [discriminate|intros [[_ E]|E]; [congruence|discriminate E]]|].
      split; [eauto|intros _ H; destruct (H eq_refl)].
  - destruct (String.eqb_spec s expected) as [E|N]; cbn [negb].
    + split; [split; [intros _; right; congruence|reflexivity]|].
      split; [congruence|intros E'; discriminate E'].
    + split; [split; [discriminate|intros [[E _]|E]; [discriminate E|congruence]]|].
      split; [eauto|intros E'; discriminate E'].
Qed.

End IssuerNonceFacts.

(** ** Fetching the metadata *)

Section FetchFacts.
Context {W : Type} `{RT : Runtime W}.

(** [fetchMetaData] makes one GET and succeeds exactly when the transport
    returned a response with a status from 200 to 299 whose body decodes
    as a JSON object, which is then the result.  A transport error is
    wrapped; any other status gives the error that names the URL and the
    status, the body undecoded; a body that does not decode gives the
    decoder's error as it is. *)
Theorem fetchMetaData_succeeds_iff (client : http_Client W) (url : string)
  (w : W) :
  (forall v w',
     fetchMetaData client url w = (Ok v, w')
     <-> exists resp metadata,
           http_Get client url w = (Ok resp, w')
           /\ 200 <= StatusCode resp < 300
           /\ json_Decode (Body resp) = Ok metadata
           /\ v = VMap metadata)
  /\ (forall err w',
        http_Get client url w = (Err err, w') ->
        fetchMetaData client url w = (Err (ErrRequestFailed err), w'))
  /\ (forall resp w',
        http_Get client url w = (Ok resp, w') ->
        ~ (200 <= StatusCode resp < 300) ->
        fetchMetaData client url w
        = (Err (ErrStatusNot2xx url (StatusCode resp)), w'))
  /\ (forall resp err w',
        http_Get client url w = (Ok resp, w') ->
        200 <= StatusCode resp < 300 ->
        json_Decode (Body resp) = Err err ->
        fetchMetaData client url w = (Err err, w')).
Proof.
  unfold fetchMetaData.
  destruct (http_Get client url w) as [[resp|err0] w0].
  2:{ split; [|split; [|split]].
      - intros v w'. split; [discriminate|].
        intros (? & ? & [=] & _).
      - intros err w' [= <- <-]. reflexivity.
      - intros ? ? [=].
      - intros ? ? ? [=]. }
  destruct (Z.leb_spec 200 (StatusCode resp)) as [Hlo|Hlo];
    destruct (Z.ltb_spec (StatusCode resp) 300) as [Hhi|Hhi]; cbn [andb negb];
    try (split; [|split; [|split]];
         [ intros v w'; split; [discriminate|];
           intros (? & ? & [= <- <-] & ? & _); lia
         | intros ? ? [=]
         | intros ? ? [= <- <-] _; reflexivity
         | intros ? ? ? [= <- <-] ?; lia ]).
  destruct (json_Decode (Body resp)) as [metadata|err0] eqn:Ed.
  - split; [|split; [|split]].
    + intros v w'. split.
      * intros [= <- <-]. exists resp, metadata. auto.
      * intros (? & ? & [= <- <-] & _ & Ed' & ->). congruence.
    + intros ? ? [=].
    + intros ? ? [= <- <-] H. lia.
    + intros ? ? ? [= <- <-] _. congruence.
  - split; [|split; [|split]].
    + intros v w'. split; [discriminate|].
      intros (? & ? & [= <- <-] & _ & Ed' & _). congruence.
    + intros ? ? [=].
    + intros ? ? [= <- <-] H. lia.
    + intros ? ? ? [= <- <-] _ E. congruence.
Qed.

End FetchFacts.

(** ** Construction, continued *)

Section NewMoreFacts.
Context {W : Type} `{RT : Runtime W}.


Lemma New_failure_keeps_metadataCache (j j' : JwtVerifier W) (w w' : W)
  (err : error) :
  New j w = (j', Some err, w') -> metadataCache j' = metadataCache j.
Proof.
  unfold New.
  destruct (Adaptor j) as [adaptor|].
  - destruct (default utils_NewDefaultCache (Cache j) _ _ _ w) as [[mc|e] w1];
      intros [= <- _ _]; reflexivity.
  - destruct (lestrratGoJwx_New _ _ _ _ w) as [[adp|e] w1].
    + destruct (default utils_NewDefaultCache (Cache j) _ _ _ w1)
        as [[mc|e] w2]; intros [= <- _ _]; reflexivity.
    + intros [= <- _ _]. reflexivity.
Qed.

Ltac run_M := unfold mbind, M_bind, mret, M_ret, call, throw in *.

Lemma decodeJwt_nil_panics (j : JwtVerifier W) (jwt : string) (w : W) :
  Discovery j = None \/ metadataCache j = None ->
  decodeJwt j jwt w = (Panicked NilDereference, w).
Proof.
  intros H. rewrite decodeJwt_unfold. unfold getMetaData. run_M.
  destruct (Discovery j) as [d|]; [|reflexivity].
  destruct H as [H|H]; [discriminate|]. rewrite H. reflexivity.
Qed.

Lemma pipeline_nil_panics (cs : list check) (j : JwtVerifier W) (jwt : string)
  (w : W) :
  Discovery j = None \/ metadataCache j = None ->
  fst (isValidJwt jwt) = true ->
  pipeline cs j jwt w = (Panicked NilDereference, w).
Proof.
  intros H Hv. rewrite pipeline_decodeJwt, (decodeJwt_nil_panics _ _ _ H).
  destruct (isValidJwt jwt) as [[|] e]; [reflexivity|discriminate].
Qed.


(** When [New] returns an error it has not set the metadata cache: on a
    receiver that had none, both flows then panic for every token that
    passes the structural check. *)
Theorem New_failure_leaves_verifier_unusable
  (j j' : JwtVerifier W) (w w' : W) (err : error) (jwt : string) (w0 : W) :
  New j w = (j', Some err, w') ->
  metadataCache j = None ->
  fst (isValidJwt jwt) = true ->
  metadataCache j' = None
  /\ VerifyIdToken j' jwt w0 = (Panicked NilDereference, w0)
  /\ VerifyAccessToken j' jwt w0 = (Panicked NilDereference, w0).
Proof.
  intros HN Hmc Hv.
  assert (Hmc' : metadataCache j' = None).
  { rewrite (New_failure_keeps_metadataCache _ _ _ _ _ HN). exact Hmc. }
  split; [exact Hmc'|].
  rewrite VerifyIdToken_pipeline, VerifyAccessToken_pipeline.
  split; apply pipeline_nil_panics; auto.
Qed.


End NewMoreFacts.


(** [New] with a cache constructor that fails. *)
Lemma New_failure_leaves_verifier_unusable_witness :
  metadataCache DemoFailures.after_New = None
  /\ VerifyIdToken DemoFailures.after_New Demo.token Demo.start
     = (Panicked NilDereference, Demo.start)
  /\ VerifyAccessToken DemoFailures.after_New Demo.token Demo.start
     = (Panicked NilDereference, Demo.start).
Proof.
  apply (New_failure_leaves_verifier_unusable
           DemoFailures.config DemoFailures.after_New Demo.start Demo.start
           (ErrForeign "no cache")).
  - reflexivity.
  - reflexivity.
  - vm_compute. reflexivity.
Defined.


(** ** The flows, continued *)

Section FlowMoreFacts.
Context {W : Type} `{RT : Runtime W}.

Ltac run_M := unfold mbind, M_bind, mret, M_ret, call, throw in *.

Lemma validateAudience_depends_on_aud (j : JwtVerifier W)
  (tv : gmap string string) (x : value) :
  tv !! "aud" = ClaimsToValidate j !! "aud" ->
  validateAudience (set_ClaimsToValidate tv j) x = validateAudience j x.
Proof.
  intros E. unfold validateAudience, index_string.
  cbn [set_ClaimsToValidate ClaimsToValidate]. rewrite E. reflexivity.
Qed.

Lemma validateClientId_depends_on_cid (j : JwtVerifier W)
  (tv : gmap string string) (x : value) :
  tv !! "cid" = ClaimsToValidate j !! "cid" ->
  validateClientId (set_ClaimsToValidate tv j) x = validateClientId j x.
Proof.
  intros E. unfold validateClientId.
  cbn [set_ClaimsToValidate ClaimsToValidate]. rewrite E. reflexivity.
Qed.

Lemma validateNonce_depends_on_nonce (j : JwtVerifier W)
  (tv : gmap string string) (x : value) :
  index_string tv "nonce" = index_string (ClaimsToValidate j) "nonce" ->
  validateNonce (set_ClaimsToValidate tv j) x = validateNonce j x.
Proof.
  intros E. unfold validateNonce.
  cbn [set_ClaimsToValidate ClaimsToValidate]. rewrite E. reflexivity.
Qed.

(** [VerifyAccessToken] never looks at the expected nonce and
    [VerifyIdToken] never looks at the expected client id: changing the
    expected-claims map anywhere but under ["aud"] and ["cid"] leaves the
    access-token flow as it is, and changing it anywhere but under
    ["aud"] and ["nonce"] leaves the id-token flow as it is. *)
Theorem flows_ignore_unrelated_expectations (j : JwtVerifier W)
  (tv : gmap string string) (jwt : string) (w : W) :
  (tv !! "aud" = ClaimsToValidate j !! "aud" ->
   tv !! "cid" = ClaimsToValidate j !! "cid" ->
   VerifyAccessToken (set_ClaimsToValidate tv j) jwt w
   = VerifyAccessToken j jwt w)
  /\ (tv !! "aud" = ClaimsToValidate j !! "aud" ->
      index_string tv "nonce" = index_string (ClaimsToValidate j) "nonce" ->
      VerifyIdToken (set_ClaimsToValidate tv j) jwt w = VerifyIdToken j jwt w).
Proof.
  assert (Hd : decodeJwt (set_ClaimsToValidate tv j) jwt w = decodeJwt j jwt w)
    by reflexivity.
  split.
  - intros Ea Ec. rewrite !VerifyAccessToken_pipeline, !pipeline_decodeJwt, Hd.
    destruct (isValidJwt jwt) as [[|] e]; [|reflexivity].
    destruct (decodeJwt j jwt w) as [[[resp|err]|p] w1]; try reflexivity.
    destruct resp as [| | | | | |token|]; try reflexivity.
    cbn [first_failure access_token_checks check_run check_wrap check_Issuer
         check_Audience check_ClientId check_Expiry check_IssuedAt].
    run_M.
    rewrite (validateAudience_depends_on_aud _ _ _ Ea).
    rewrite (validateClientId_depends_on_cid _ _ _ Ec).
    reflexivity.
  - intros Ea En. rewrite !VerifyIdToken_pipeline, !pipeline_decodeJwt, Hd.
    destruct (isValidJwt jwt) as [[|] e]; [|reflexivity].
    destruct (decodeJwt j jwt w) as [[[resp|err]|p] w1]; try reflexivity.
    destruct resp as [| | | | | |token|]; try reflexivity.
    cbn [first_failure id_token_checks check_run check_wrap check_Issuer
         check_Audience check_Expiry check_IssuedAt check_Nonce].
    run_M.
    rewrite (validateAudience_depends_on_aud _ _ _ Ea).
    rewrite (validateNonce_depends_on_nonce _ _ _ En).
    reflexivity.
Qed.

(** The two flows part only at the claim checks: one returns without a
    claim set exactly when the other does, with the same error and the
    same world, and one panics exactly when the other does. *)
Theorem flows_agree_before_claim_checks (j : JwtVerifier W) (jwt : string)
  (w : W) :
  (forall err w',
     VerifyIdToken j jwt w = (Returned (None, err), w')
     <-> VerifyAccessToken j jwt w = (Returned (None, err), w'))
  /\ (forall p w',
        VerifyIdToken j jwt w = (Panicked p, w')
        <-> VerifyAccessToken j jwt w = (Panicked p, w')).
Proof.
  rewrite VerifyIdToken_pipeline, VerifyAccessToken_pipeline,
    !pipeline_decodeJwt.
  destruct (isValidJwt jwt) as [[|] e]; [|split; intros; reflexivity].
  destruct (decodeJwt j jwt w) as [[[resp|err]|p] w1];
    try (split; intros; reflexivity).
  destruct resp as [| | | | | |token|]; try (split; intros; reflexivity).
  destruct (first_failure_total j token id_token_checks w1
              id_token_checks_total) as (r1 & wa & ->).
  destruct (first_failure_total j token access_token_checks w1
              access_token_checks_total) as (r2 & wb & ->).
  split; intros; split; discriminate.
Qed.

(** What an accepted token is known to satisfy.  When [VerifyIdToken]
    returns a claim set and no error, the token passed the structural
    check, the issuer, audience and nonce checks pass on the returned
    claims, and their ["exp"] and ["iat"] are [float64] values; the same
    for [VerifyAccessToken] with the client-id check in place of the
    nonce check. *)
Theorem Verify_accepts_only_checked_claims (j : JwtVerifier W) (jwt : string)
  (w : W) :
  (forall myJwt w',
     VerifyIdToken j jwt w = (Returned (Some myJwt, None), w') ->
     fst (isValidJwt jwt) = true
     /\ validateIss j (index_value (Claims myJwt) "iss") = None
     /\ validateAudience j (index_value (Claims myJwt) "aud") = None
     /\ validateNonce j (index_value (Claims myJwt) "nonce") = None
     /\ exists exp iat,
          index_value (Claims myJwt) "exp" = VFloat exp
          /\ index_value (Claims myJwt) "iat" = VFloat iat)
  /\ (forall myJwt w',
        VerifyAccessToken j jwt w = (Returned (Some myJwt, None), w') ->
        fst (isValidJwt jwt) = true
        /\ validateIss j (index_value (Claims myJwt) "iss") = None
        /\ validateAudience j (index_value (Claims myJwt) "aud") = None
        /\ validateClientId j (index_value (Claims myJwt) "cid") = None
        /\ exists exp iat,
             index_value (Claims myJwt) "exp" = VFloat exp
             /\ index_value (Claims myJwt) "iat" = VFloat iat).
Proof.
  assert (Hexp : forall x w0 w1,
            validateExp j x w0 = (Returned None, w1) -> exists f, x = VFloat f).
  { intros x w0 w1 H. destruct x; try discriminate H. eauto. }
  assert (Hiat : forall x w0 w1,
            validateIat j x w0 = (Returned None, w1) -> exists f, x = VFloat f).
  { intros x w0 w1 H. destruct x; try discriminate H. eauto. }
  split; intros myJwt w' H.
  - rewrite VerifyIdToken_pipeline, pipeline_decodeJwt in H.
    destruct (isValidJwt jwt) as [[|] e]; [|discriminate H].
    destruct (decodeJwt j jwt w) as [[[resp|err]|p] w1]; try discriminate H.
    destruct resp as [| | | | | |token|]; try discriminate H.
    cbn [first_failure id_token_checks check_run check_wrap check_Issuer
         check_Audience check_Expiry check_IssuedAt check_Nonce] in H.
    run_M.
    destruct (validateIss j _) eqn:Ei; [discriminate H|].
    destruct (validateAudience j _) eqn:Ea; [discriminate H|].
    destruct (validateExp j _ w1) as [[[?|]|?] w2] eqn:Ee; try discriminate H.
    destruct (validateIat j _ w2) as [[[?|]|?] w3] eqn:Et; try discriminate H.
    destruct (validateNonce j _) eqn:En; [discriminate H|].
    injection H as <- <-. cbn [Claims fst].
    destruct (Hexp _ _ _ Ee) as [fe He]. destruct (Hiat _ _ _ Et) as [fi Hi].
    eauto 10.
  - rewrite VerifyAccessToken_pipeline, pipeline_decodeJwt in H.
    destruct (isValidJwt jwt) as [[|] e]; [|discriminate H].
    destruct (decodeJwt j jwt w) as [[[resp|err]|p] w1]; try discriminate H.
    destruct resp as [| | | | | |token|]; try discriminate H.
    cbn [first_failure access_token_checks check_run check_wrap check_Issuer
         check_Audience check_ClientId check_Expiry check_IssuedAt] in H.
    run_M.
    destruct (validateIss j _) eqn:Ei; [discriminate H|].
    destruct (validateAudience j _) eqn:Ea; [discriminate H|].
    destruct (validateClientId j _) eqn:Ec; [discriminate H|].
    destruct (validateExp j _ w1) as [[[?|]|?] w2] eqn:Ee; try discriminate H.
    destruct (validateIat j _ w2) as [[[?|]|?] w3] eqn:Et; try discriminate H.
    injection H as <- <-. cbn [Claims fst].
    destruct (Hexp _ _ _ Ee) as [fe He]. destruct (Hiat _ _ _ Et) as [fi Hi].
    eauto 10.
Qed.

(** A wider leeway never turns away what a narrower one lets through.
    For a claim of whole seconds, if the expiry check or the issued-at
    check passes with the configured leeway, it passes with every larger
    one (all times below 2^53). *)
Theorem leeway_is_monotone (j : JwtVerifier W) (L' t : Z) (w : W) :
  let now := fst (time_Now_Unix w) in
  let x := VFloat (float64_of_int64 t) in
  leeway j <= L' ->
  Z.abs t < 2 ^ 53 ->
  Z.abs (now - leeway j) < 2 ^ 53 -> Z.abs (now - L') < 2 ^ 53 ->
  Z.abs (now + leeway j) < 2 ^ 53 -> Z.abs (now + L') < 2 ^ 53 ->
  (fst (validateExp j x w) = Returned None ->
   fst (validateExp (set_leeway L' j) x w) = Returned None)
  /\ (fst (validateIat j x w) = Returned None ->
      fst (validateIat (set_leeway L' j) x w) = Returned None).
Proof.
  cbv zeta. intros HL Ht H1 H2 H3 H4.
  rewrite !validateExp_float, !validateIat_float. cbn [fst set_leeway leeway].
  unfold int64_sub, int64_add. rewrite !int64_wrap_small by lia.
  rewrite !float64_gt_of_int64, !float64_lt_of_int64 by assumption.
  split.
  - destruct (Z.gtb_spec (fst (time_Now_Unix w) - leeway j) t); [discriminate|].
    intros _. destruct (Z.gtb_spec (fst (time_Now_Unix w) - L') t);
      [lia|reflexivity].
  - destruct (Z.ltb_spec (fst (time_Now_Unix w) + leeway j) t); [discriminate|].
    intros _. destruct (Z.ltb_spec (fst (time_Now_Unix w) + L') t);
      [lia|reflexivity].
Qed.

End FlowMoreFacts.

(** The token of the examples is accepted as an access token and its
    claims carry what the checks looked for. *)
Lemma Verify_accepts_only_checked_claims_witness :
  validateIss Demo.verifier (index_value Demo.claims "iss") = None
  /\ validateAudience Demo.verifier (index_value Demo.claims "aud") = None
  /\ validateClientId Demo.verifier (index_value Demo.claims "cid") = None
  /\ exists exp iat,
       index_value Demo.claims "exp" = VFloat exp
       /\ index_value Demo.claims "iat" = VFloat iat.
Proof.
  destruct (Verify_accepts_only_checked_claims Demo.verifier Demo.token
              Demo.start) as [_ H].
  assert (E : VerifyAccessToken Demo.verifier Demo.token Demo.start
              = (Returned (Some {| Claims := Demo.claims |}, None),
                 Demo.record Demo.EvNow (Demo.record Demo.EvNow Demo.decoded)))
    by (vm_compute; reflexivity).
  exact (proj2 (H _ _ E)).
Defined.

(** With the clock at 1700000000, a token that expired 100 seconds ago
    passes with the leeway of 120 seconds, and so with one of 300. *)
Lemma leeway_is_monotone_witness :
  fst (validateExp (set_leeway 300 Demo.verifier)
         (VFloat (float64_of_int64 1699999900)) Demo.start) = Returned None.
Proof.
  apply (leeway_is_monotone Demo.verifier 300 1699999900 Demo.start);
    vm_compute; try reflexivity; discriminate.
Defined.

(** An access-token verifier to which a nonce expectation is added gives
    the same answer. *)
Lemma flows_ignore_unrelated_expectations_witness :
  VerifyAccessToken
    (set_ClaimsToValidate (<["nonce" := "n-1"]> Demo.expected) Demo.verifier)
    Demo.token Demo.start
  = VerifyAccessToken Demo.verifier Demo.token Demo.start.
Proof.
  assert (Ea : <["nonce" := "n-1"]> Demo.expected !! "aud"
               = ClaimsToValidate Demo.verifier !! "aud")
    by (vm_compute; reflexivity).
  assert (Ec : <["nonce" := "n-1"]> Demo.expected !! "cid"
               = ClaimsToValidate Demo.verifier !! "cid")
    by (vm_compute; reflexivity).
  exact (proj1 (flows_ignore_unrelated_expectations Demo.verifier
                  (<["nonce" := "n-1"]> Demo.expected) Demo.token Demo.start)
               Ea Ec).
Defined.

(** ** Client id, setters, and what a flow does to the outside *)

Section LastFacts.
Context {W : Type} `{RT : Runtime W}.

Ltac run_M := unfold mbind, M_bind, mret, M_ret, call, throw in *.

(** [validateClientId] passes exactly when no ["cid"] is expected, or the
    claim is the expected string, or it is a [[]string] that contains it.
    It fails with the unknown-type error or with the mismatch that names
    the claim and the expected value, and with nothing else. *)
Theorem validateClientId_passes_iff (j : JwtVerifier W) (clientId : value) :
  (validateClientId j clientId = None
   <-> ClaimsToValidate j !! "cid" = None
       \/ exists cid,
            ClaimsToValidate j !! "cid" = Some cid
            /\ (clientId = VString cid
                \/ exists l, clientId = VStrings l /\ In cid l))
  /\ (forall err,
        validateClientId j clientId = Some err ->
        err = ErrCidUnknownType
        \/ exists cid,
             ClaimsToValidate j !! "cid" = Some cid
             /\ err = ErrCidMismatch clientId cid).
Proof.
  pose proof (validateClientId_contract j clientId) as H.
  destruct (ClaimsToValidate j !! "cid") as [cid|] eqn:E.
  2:{ rewrite H. split; [split; auto|discriminate]. }
  assert (Hno : forall P : Prop,
            ((clientId = VString cid
              \/ exists l, clientId = VStrings l /\ In cid l) -> P) ->
            (Some cid = None
             \/ exists cid', Some cid = Some cid'
                  /\ (clientId = VString cid'
                      \/ exists l, clientId = VStrings l /\ In cid' l)) -> P).
  { intros P HP [H0|(cid' & [= <-] & H0)]; [discriminate H0|auto]. }
  destruct clientId as [|s|f|b|l|l|m|tag];
    try (rewrite H; split;
         [split; [discriminate|apply Hno; intros [?|(? & ? & _)]; discriminate]
         |intros ? [= <-]; auto]).
  - destruct H as [[-> ->]|[Hne ->]].
    + split; [split; eauto|discriminate].
    + split.
      * split; [discriminate|]. apply Hno.
        intros [[= ->]|(? & ? & _)]; [congruence|discriminate].
      * intros ? [= <-]. eauto.
  - destruct H as [[Hin ->]|[Hnin ->]].
    + split; [split; [|reflexivity]|discriminate].
      intros _. right. exists cid. split; [reflexivity|]. right. eauto.
    + split.
      * split; [discriminate|]. apply Hno.
        intros [?|(l' & [= <-] & Hin)]; [discriminate|tauto].
      * intros ? [= <-]. eauto.
Qed.

(** [SetTimeOut] and [SetCleanUp] change a field and nothing a flow reads:
    called on a built verifier they leave both flows as they are, the
    metadata cache having been made already.  Called before [New] they
    decide the durations of the verifier, a zero being replaced by the
    default. *)
Theorem SetTimeOut_SetCleanUp_reach (j : JwtVerifier W) (d : Duration)
  (jwt : string) (w : W) :
  VerifyIdToken (SetTimeOut d j) jwt w = VerifyIdToken j jwt w
  /\ VerifyAccessToken (SetTimeOut d j) jwt w = VerifyAccessToken j jwt w
  /\ VerifyIdToken (SetCleanUp d j) jwt w = VerifyIdToken j jwt w
  /\ VerifyAccessToken (SetCleanUp d j) jwt w = VerifyAccessToken j jwt w
  /\ Timeout (fst (fst (New (SetTimeOut d j) w)))
     = (if d =? 0 then 5 * Minute else d)
  /\ Cleanup (fst (fst (New (SetCleanUp d j) w)))
     = (if d =? 0 then 10 * Minute else d).
Proof.
  repeat (split; [reflexivity|]).
  split.
  - unfold New, SetTimeOut.
    cbn [set_Timeout Adaptor Timeout Cleanup Cache Client Discovery].
    destruct (Adaptor j) as [adaptor|].
    + destruct (default utils_NewDefaultCache (Cache j) _ _ _ w)
        as [[mc|err] w1]; reflexivity.
    + destruct (lestrratGoJwx_New _ _ _ _ w) as [[adp|err] w1]; [|reflexivity].
      destruct (default utils_NewDefaultCache (Cache j) _ _ _ w1)
        as [[mc|err] w2]; reflexivity.
  - unfold New, SetCleanUp.
    cbn [set_Cleanup Adaptor Timeout Cleanup Cache Client Discovery].
    destruct (Adaptor j) as [adaptor|].
    + destruct (default utils_NewDefaultCache (Cache j) _ _ _ w)
        as [[mc|err] w1]; reflexivity.
    + destruct (lestrratGoJwx_New _ _ _ _ w) as [[adp|err] w1]; [|reflexivity].
      destruct (default utils_NewDefaultCache (Cache j) _ _ _ w1)
        as [[mc|err] w2]; reflexivity.
Qed.

Lemma first_failure_world_id (j : JwtVerifier W) (token : gmap string value)
  (w1 : W) :
  let w2 := snd (time_Now_Unix w1) in
  let w3 := snd (time_Now_Unix w2) in
  snd (first_failure id_token_checks j token w1) = w1
  \/ snd (first_failure id_token_checks j token w1) = w2
  \/ snd (first_failure id_token_checks j token w1) = w3.
Proof.
  cbv zeta.
  cbn [first_failure id_token_checks check_run check_wrap check_Issuer
       check_Audience check_Expiry check_IssuedAt check_Nonce].
  run_M.
  destruct (validateIss j _); [auto|].
  destruct (validateAudience j _); [auto|].
  destruct (index_value token "exp") as [| |fe| | | | |]; auto.
  rewrite validateExp_float. destruct (float64_gt _ fe); [auto|].
  destruct (index_value token "iat") as [| |fi| | | | |]; auto.
  rewrite validateIat_float. destruct (float64_lt _ fi); [auto|].
  destruct (validateNonce j _); auto.
Qed.

Lemma first_failure_world_access (j : JwtVerifier W)
  (token : gmap string value) (w1 : W) :
  let w2 := snd (time_Now_Unix w1) in
  let w3 := snd (time_Now_Unix w2) in
  snd (first_failure access_token_checks j token w1) = w1
  \/ snd (first_failure access_token_checks j token w1) = w2
  \/ snd (first_failure access_token_checks j token w1) = w3.
Proof.
  cbv zeta.
  cbn [first_failure access_token_checks check_run check_wrap check_Issuer
       check_Audience check_ClientId check_Expiry check_IssuedAt].
  run_M.
  destruct (validateIss j _); [auto|].
  destruct (validateAudience j _); [auto|].
  destruct (validateClientId j _); [auto|].
  destruct (index_value token "exp") as [| |fe| | | | |]; auto.
  rewrite validateExp_float. destruct (float64_gt _ fe); [auto|].
  destruct (index_value token "iat") as [| |fi| | | | |]; auto.
  rewrite validateIat_float. destruct (float64_lt _ fi); auto.
Qed.

(** Once the adaptor has decoded the claims, a flow does nothing to the
    outside but read the clock, at most twice: the world it leaves is the
    world after the decode, or that world after one or two readings of
    the clock. *)
Theorem claim_checks_only_read_the_clock (j : JwtVerifier W) (jwt : string)
  (w : W) (token : gmap string value) (w1 : W) :
  fst (isValidJwt jwt) = true ->
  decodeJwt j jwt w = (Returned (Ok (VMap token)), w1) ->
  let w2 := snd (time_Now_Unix w1) in
  let w3 := snd (time_Now_Unix w2) in
  (snd (VerifyIdToken j jwt w) = w1 \/ snd (VerifyIdToken j jwt w) = w2
   \/ snd (VerifyIdToken j jwt w) = w3)
  /\ (snd (VerifyAccessToken j jwt w) = w1
      \/ snd (VerifyAccessToken j jwt w) = w2
      \/ snd (VerifyAccessToken j jwt w) = w3).
Proof.
  intros Hv Hd. cbv zeta.
  rewrite VerifyIdToken_pipeline, VerifyAccessToken_pipeline,
    !pipeline_decodeJwt, Hd.
  destruct (isValidJwt jwt) as [[|] e]; [|discriminate Hv].
  pose proof (first_failure_world_id j token w1) as Hid.
  pose proof (first_failure_world_access j token w1) as Hacc.
  cbv zeta in Hid, Hacc. split.
  - destruct (first_failure id_token_checks j token w1) as [[r|p] wx];
      exact Hid.
  - destruct (first_failure access_token_checks j token w1) as [[r|p] wx];
      exact Hacc.
Qed.

End LastFacts.

(** In the example world the accepted access token leaves the world of
    the decode with two readings of the clock. *)
Lemma claim_checks_only_read_the_clock_witness :
  (snd (VerifyIdToken Demo.verifier Demo.token Demo.start) = Demo.decoded
   \/ snd (VerifyIdToken Demo.verifier Demo.token Demo.start)
      = Demo.record Demo.EvNow Demo.decoded
   \/ snd (VerifyIdToken Demo.verifier Demo.token Demo.start)
      = Demo.record Demo.EvNow (Demo.record Demo.EvNow Demo.decoded))
  /\ (snd (VerifyAccessToken Demo.verifier Demo.token Demo.start)
      = Demo.decoded
      \/ snd (VerifyAccessToken Demo.verifier Demo.token Demo.start)
         = Demo.record Demo.EvNow Demo.decoded
      \/ snd (VerifyAccessToken Demo.verifier Demo.token Demo.start)
         = Demo.record Demo.EvNow (Demo.record Demo.EvNow Demo.decoded)).
Proof.
  assert (Ev : fst (isValidJwt Demo.token) = true) by (vm_compute; reflexivity).
  assert (Ed : decodeJwt Demo.verifier Demo.token Demo.start
               = (Returned (Ok (VMap Demo.claims)), Demo.decoded))
    by (vm_compute; reflexivity).
  exact (claim_checks_only_read_the_clock Demo.verifier Demo.token Demo.start
           Demo.claims Demo.decoded Ev Ed).
Defined.
